(** * hw-invest-proxy: a shallow embedding of [proxy.js]

    The proxy keeps one process-wide object [quoteCache], refreshes it from
    the upstream quote provider on a timer ([updateAllStocks]) and serves it
    over three Express routes.  Every function of [proxy.js] is transcribed
    below as a program over the primitive effects the JavaScript performs
    (reading the clock, calling [axios.get], reading and assigning
    properties of [quoteCache], writing to the console).  The programs are
    then given two semantics: a sequential one, where a handler runs from
    start to end against a given environment, and an interleaved one, where
    several handlers are in flight at once as they are on the Node event
    loop.

    What lies outside [proxy.js] enters as follows.  The replies of the
    upstream, the API key and the lateness of timers are an environment the
    theorems quantify over.  The rate limiter of the express-rate-limit
    package is modelled from its description, with the options [proxy.js]
    passes to it.  The headers set by [helmet()] are whatever the response
    already carries when it enters the chain.

    Three points of JavaScript decide what the handlers do on unusual input
    and are modelled as the language defines them: [quoteCache.data] is a
    plain object, so it has a prototype besides its own properties;
    [req.query.symbol] is whatever the query parser of Express delivers, a
    string, an array or an object; and converting a value to a string, in a
    template literal or as a property key, can throw. *)

From Stdlib Require Import ZArith QArith Ascii String List Lia.
From stdpp Require Import gmap strings list fin_maps pretty.

Local Open Scope string_scope.
Local Open Scope list_scope.
Local Open Scope Z_scope.

Set Warnings "-register-all".

(** ** Values *)

(** The body of an upstream response after [axios] has decoded it.  A
    number is the rational its floating-point value is: the proxy tests
    numbers for truthiness and does not compute with them. *)
Inductive json : Type :=
| JNull
| JBool (b : bool)
| JNum (q : Q)
| JStr (s : string)
| JArr (items : list json)
| JObj (fields : list (string * json)).

(** JavaScript's ToBoolean, as applied by [if (data)]. *)
Definition truthy (v : json) : bool :=
  match v with
  | JNull => false
  | JBool b => b
  | JNum q => negb (Qnum q =? 0)
  | JStr s => negb (String.eqb s "")
  | JArr _ => true
  | JObj _ => true
  end.

(** Property access [v.name] on a decoded body, for a name no prototype
    defines; [None] stands for [undefined].  [JSON.parse] keeps the last of
    several equal keys. *)
Fixpoint last_field (name : string) (fields : list (string * json)) : option json :=
  match fields with
  | [] => None
  | (k, v) :: rest =>
      match last_field name rest with
      | Some v' => Some v'
      | None => if String.eqb k name then Some v else None
      end
  end.

Definition js_member (name : string) (v : json) : option json :=
  match v with
  | JObj fields => last_field name fields
  | _ => None
  end.

(** Whether an object has a property of its own called [name]. *)
Definition has_field {V : Type} (name : string) (fields : list (string * V)) : bool :=
  existsb (fun kv => String.eqb kv.1 name) fields.

(** Whether JavaScript's ToString completes on a decoded value, as a
    template literal [`${v}`] applies it.  A primitive always converts.  An
    array converts when each of its elements does ([join] turns [null] into
    the empty string).  An object converts through the [toString] it
    inherits, to ["[object Object]"]; when it has a [toString] member of its
    own, which in a decoded JSON value is never a function, the conversion
    finds no method that returns a primitive and throws a [TypeError]. *)
Fixpoint stringifies (v : json) : bool :=
  match v with
  | JArr items => forallb stringifies items
  | JObj fields => negb (has_field "toString" fields)
  | _ => true
  end.

(** A member that is [undefined] converts to ["undefined"]. *)
Definition member_stringifies (name : string) (v : json) : bool :=
  match js_member name v with
  | Some c => stringifies c
  | None => true
  end.

(** What a [catch] clause receives: an [Error] carrying a [message].  The
    exceptions of this program are the rejections of [axios] and the
    [TypeError]s of the language. *)
Record JsError : Type := { message : string }.

(** The [TypeError] of a conversion to a primitive that finds no usable
    [toString] or [valueOf]. *)
Definition cannot_convert : JsError :=
  {| message := "Cannot convert object to primitive value" |}.

(** The [TypeError] of reading property [name] of [undefined] or [null]. *)
Definition cannot_read (value name : string) : JsError :=
  {| message := "Cannot read properties of " +:+ value +:+
                " (reading '" +:+ name +:+ "')" |}.

(** Outcome of awaiting [axios.get(url)]: [response.data] when the promise
    resolved, the error when it rejected. *)
Inductive AxiosResult : Type :=
| Resolved (response_data : json)
| Rejected (error : JsError).

(** ** What [axios] makes of a reply

    [axios] is a dependency of [proxy.js], which calls it with its default
    configuration.  What happened on the wire is either a failure of the
    transport or an HTTP response with a status and a body, the body being
    the text of a JSON value or some other text. *)
Inductive HttpBody : Type :=
| JsonText (v : json)          (* the body is the JSON text of [v] *)
| OtherText (raw : string).    (* the body is [raw], which is not JSON *)

Inductive HttpReply : Type :=
| NetworkError (msg : string)
| HttpResponse (status : Z) (body_text : HttpBody).

(** The defaults of [axios]: a status outside 200..299 rejects
    ([validateStatus]); a body that parses as JSON is decoded, and a body
    that does not parse is handed on as the string it is, without an error
    ([transitional.silentJSONParsing]). *)
Definition axios_settle (reply : HttpReply) : AxiosResult :=
  match reply with
  | NetworkError msg => Rejected {| message := msg |}
  | HttpResponse status body_text =>
      if (200 <=? status) && (status <? 300) then
        Resolved match body_text with
                 | JsonText v => v
                 | OtherText raw => JStr raw
                 end
      else
        Rejected {| message := "Request failed with status code " +:+ pretty status |}
  end.

(** ** The quote cache

    [const quoteCache = { data: {}, lastUpdated: 0 }].  The inner object is
    used as a dictionary from ticker to [{data, timestamp}].  It is a plain
    object: besides the properties assigned to it ([qc_data]) it has a
    prototype, [Object.prototype] at first.  Assigning to the key
    ["__proto__"] does not create a property, it replaces the prototype by
    the assigned object ([qc_proto], [None] while it is still
    [Object.prototype]); the members [data] and [timestamp] of that object
    are then inherited by the dictionary. *)
Record CachedQuote : Type := { data : json; timestamp : Z }.

Record QuoteCache : Type := {
  qc_data : gmap string CachedQuote;
  qc_proto : option CachedQuote;
  lastUpdated : Z
}.

(** What [quoteCache.data[key]] evaluates to. *)
Inductive Looked : Type :=
| LEntry (entry : CachedQuote)   (* an object [{data, timestamp}] *)
| LPayload (v : json)            (* the [data] member of the prototype *)
| LNumber (t : Z)                (* the [timestamp] member of the prototype *)
| LBuiltin                       (* [Object.prototype] or one of its methods *)
| LUndefined.

(** The properties of [Object.prototype] other than the accessor
    [__proto__]; none of them is enumerable. *)
Definition object_prototype_names : list string :=
  [ "constructor"; "hasOwnProperty"; "isPrototypeOf"; "propertyIsEnumerable";
    "toLocaleString"; "toString"; "valueOf";
    "__defineGetter__"; "__defineSetter__"; "__lookupGetter__"; "__lookupSetter__" ].

Definition from_object_prototype (key : string) : Looked :=
  if existsb (String.eqb key) object_prototype_names then LBuiltin else LUndefined.

(** [quoteCache.data[key]]: an own property first; then, for ["__proto__"],
    the prototype itself; then the members of the prototype, and last those
    of [Object.prototype]. *)
Definition cache_lookup (key : string) (c : QuoteCache) : Looked :=
  match qc_data c !! key with
  | Some entry => LEntry entry
  | None =>
      if String.eqb key "__proto__" then
        match qc_proto c with
        | Some entry => LEntry entry
        | None => LBuiltin
        end
      else
        match qc_proto c with
        | Some entry =>
            if String.eqb key "data" then LPayload (data entry)
            else if String.eqb key "timestamp" then LNumber (timestamp entry)
            else from_object_prototype key
        | None => from_object_prototype key
        end
  end.

Definition with_entries (m : gmap string CachedQuote) (c : QuoteCache) : QuoteCache :=
  {| qc_data := m; qc_proto := qc_proto c; lastUpdated := lastUpdated c |}.

Definition with_proto (p : option CachedQuote) (c : QuoteCache) : QuoteCache :=
  {| qc_data := qc_data c; qc_proto := p; lastUpdated := lastUpdated c |}.

Definition with_lastUpdated (t : Z) (c : QuoteCache) : QuoteCache :=
  {| qc_data := qc_data c; qc_proto := qc_proto c; lastUpdated := t |}.

(** [quoteCache.data[key] = entry].  Every inherited property is writable,
    so the assignment creates or overwrites an own property, except for
    ["__proto__"], whose inherited setter replaces the prototype. *)
Definition cache_assign (key : string) (entry : CachedQuote) (c : QuoteCache)
    : QuoteCache :=
  match qc_data c !! key with
  | Some _ => with_entries (<[key := entry]> (qc_data c)) c
  | None =>
      if String.eqb key "__proto__"
      then with_proto (Some entry) c
      else with_entries (<[key := entry]> (qc_data c)) c
  end.

(** [Object.keys(quoteCache.data)]: the own properties. *)
Definition own_keys (c : QuoteCache) : list string := (map_to_list (qc_data c)).*1.

(** The keys [for (const key in quoteCache.data)] visits: the own properties,
    then the enumerable properties of the prototype chain that no own
    property shadows. *)
Definition for_in_keys (c : QuoteCache) : list string :=
  own_keys c ++
  match qc_proto c with
  | Some _ =>
      filter (fun key => qc_data c !! key = None) ["data"; "timestamp"]
  | None => []
  end.

(** Lines written with [console.log] and [console.error], kept with their
    arguments rather than formatted. *)
Inductive LogLine : Type :=
| LogUpdating
| LogUpdated (symbol : string) (c : option json)
| LogCompleted (at_time : Z)
| ErrFetching (symbol : string) (msg : string)
| ErrFailedUpdate (symbol : string) (err : JsError)
| ErrProxy (err : JsError).

(** One client record of the rate limiter's store. *)
Record ClientHits : Type := { totalHits : Z; resetTime : Z }.

(** ** The process state *)
Record World : Type := {
  quoteCache : QuoteCache;
  clock : Z;                            (* the value [Date.now()] returns *)
  console : list LogLine;               (* oldest line first *)
  outbound : list string;               (* URLs requested upstream, oldest first *)
  timers : nat;                         (* timers awaited so far *)
  limiterStore : gmap string ClientHits (* per-IP counters of the limiter *)
}.

(** What the process cannot control: its configuration, the replies of the
    upstream and the lateness of timers.  The [n]-th outbound call receives
    [upstream n url], a result together with the milliseconds it took; the
    [n]-th timer fires [timer_lag n] milliseconds late.

    [age_below now v limit] is the value of [now - v < limit] as the
    language computes it when [v] is a decoded JSON value where a timestamp
    is expected: [v] is coerced to a floating-point number first, and the
    coercion throws for some objects ([None]).  The theorems hold for every
    such function. *)
Record Env : Type := {
  FINNHUB_API_KEY : option string;
  upstream : nat -> string -> AxiosResult * N;
  timer_lag : nat -> N;
  boot_time : Z;
  age_below : Z -> json -> Z -> option bool
}.

(** The environment in which the upstream is reached through the network
    [net] and [axios] settles each reply. *)
Definition over_network (net : nat -> string -> HttpReply * N) (env : Env) : Env :=
  {| FINNHUB_API_KEY := FINNHUB_API_KEY env;
     upstream := fun n url => (axios_settle (net n url).1, (net n url).2);
     timer_lag := timer_lag env;
     boot_time := boot_time env;
     age_below := age_below env |}.

Definition set_cache (c : QuoteCache) (w : World) : World :=
  {| quoteCache := c; clock := clock w; console := console w;
     outbound := outbound w; timers := timers w;
     limiterStore := limiterStore w |}.

Definition set_clock (t : Z) (w : World) : World :=
  {| quoteCache := quoteCache w; clock := t; console := console w;
     outbound := outbound w; timers := timers w;
     limiterStore := limiterStore w |}.

Definition set_console (l : list LogLine) (w : World) : World :=
  {| quoteCache := quoteCache w; clock := clock w; console := l;
     outbound := outbound w; timers := timers w;
     limiterStore := limiterStore w |}.

Definition set_outbound (l : list string) (w : World) : World :=
  {| quoteCache := quoteCache w; clock := clock w; console := console w;
     outbound := l; timers := timers w;
     limiterStore := limiterStore w |}.

Definition set_timers (n : nat) (w : World) : World :=
  {| quoteCache := quoteCache w; clock := clock w; console := console w;
     outbound := outbound w; timers := n;
     limiterStore := limiterStore w |}.

Definition set_limiterStore (s : gmap string ClientHits) (w : World) : World :=
  {| quoteCache := quoteCache w; clock := clock w; console := console w;
     outbound := outbound w; timers := timers w;
     limiterStore := s |}.

Definition initial_world (start : Z) : World :=
  {| quoteCache := {| qc_data := ∅; qc_proto := None; lastUpdated := 0 |};
     clock := start; console := []; outbound := []; timers := 0%nat;
     limiterStore := ∅ |}.

(** ** Primitive effects

    [event X] is an effect whose answer has type [X].  The store events are
    the operations JavaScript offers on an object; [CacheDelete] is among
    them although no handler below issues it, which is what the key-set
    invariant establishes.  [AgeBelow now v limit] evaluates
    [now - v < limit] for a decoded value [v]. *)
Inductive event : Type -> Type :=
| ProcessEnvApiKey : event (option string)
| AxiosGet (url : string) : event AxiosResult
| SetTimeout (ms : Z) : event unit
| DateNow : event Z
| ConsoleWrite (line : LogLine) : event unit
| CacheGet (symbol : string) : event Looked
| CacheSet (symbol : string) (entry : CachedQuote) : event unit
| CacheDelete (symbol : string) : event unit
| CacheKeys : event (list string)
| CacheForIn : event (list string)
| AgeBelow (now : Z) (v : json) (limit : Z) : event (option bool)
| GetLastUpdated : event Z
| SetLastUpdated (t : Z) : event unit
| ProcessUptime : event Q
| LimiterIncrement (key : string) (windowMs : Z) : event ClientHits.

(** Programs: return, throw, or perform an effect and continue. *)
Inductive prog (A : Type) : Type :=
| Ret (a : A)
| Throw (e : JsError)
| Vis {X : Type} (ev : event X) (k : X -> prog A).

Arguments Ret {A} a.
Arguments Throw {A} e.
Arguments Vis {A X} ev k.

Fixpoint bind {A B : Type} (m : prog A) (f : A -> prog B) : prog B :=
  match m with
  | Ret a => f a
  | Throw e => Throw e
  | Vis ev k => Vis ev (fun x => bind (k x) f)
  end.

(** [try { m } catch (e) { h e }] *)
Fixpoint try_catch {A : Type} (m : prog A) (h : JsError -> prog A) : prog A :=
  match m with
  | Ret a => Ret a
  | Throw e => h e
  | Vis ev k => Vis ev (fun x => try_catch (k x) h)
  end.

Definition trigger {X : Type} (ev : event X) : prog X := Vis ev Ret.

Notation "'let!' x ':=' m 'in' k" := (bind m (fun x => k))
  (at level 10, x name, m at level 100, k at level 200, only parsing).
Notation "m ';;' k" := (bind m (fun _ => k))
  (at level 100, k at level 200, right associativity, only parsing).

(** ** Sequential semantics *)

Inductive outcome (A : Type) : Type :=
| Returned (a : A)
| Raised (e : JsError).

Arguments Returned {A} a.
Arguments Raised {A} e.

(** Modelled from the spec: the store of the rate limiter, which belongs to
    the express-rate-limit package.  A client's counter starts again once its
    window has elapsed, then counts the current hit. *)
Definition store_increment (key : string) (windowMs now : Z)
    (s : gmap string ClientHits) : ClientHits :=
  match s !! key with
  | Some c => if now <? resetTime c
              then {| totalHits := totalHits c + 1; resetTime := resetTime c |}
              else {| totalHits := 1; resetTime := now + windowMs |}
  | None => {| totalHits := 1; resetTime := now + windowMs |}
  end.

Definition perform (env : Env) {X : Type} (ev : event X) (w : World) : X * World :=
  match ev in event X return X * World with
  | ProcessEnvApiKey => (FINNHUB_API_KEY env, w)
  | AxiosGet url =>
      let '(r, latency) := upstream env (length (outbound w)) url in
      (r, set_clock (clock w + Z.of_N latency) (set_outbound (outbound w ++ [url]) w))
  | SetTimeout ms =>
      (tt, set_clock (clock w + Z.max 0 ms + Z.of_N (timer_lag env (timers w)))
             (set_timers (S (timers w)) w))
  | DateNow => (clock w, w)
  | ConsoleWrite line => (tt, set_console (console w ++ [line]) w)
  | CacheGet symbol => (cache_lookup symbol (quoteCache w), w)
  | CacheSet symbol entry =>
      (tt, set_cache (cache_assign symbol entry (quoteCache w)) w)
  | CacheDelete symbol =>
      (tt, set_cache (with_entries (delete symbol (qc_data (quoteCache w)))
                        (quoteCache w)) w)
  | CacheKeys => (own_keys (quoteCache w), w)
  | CacheForIn => (for_in_keys (quoteCache w), w)
  | AgeBelow now v limit => (age_below env now v limit, w)
  | GetLastUpdated => (lastUpdated (quoteCache w), w)
  | SetLastUpdated t =>
      (tt, set_cache (with_lastUpdated t (quoteCache w)) w)
  | ProcessUptime => (Qmake (clock w - boot_time env) 1000, w)
  | LimiterIncrement key windowMs =>
      let c := store_increment key windowMs (clock w) (limiterStore w) in
      (c, set_limiterStore (<[key := c]> (limiterStore w)) w)
  end.

Fixpoint run (env : Env) {A : Type} (m : prog A) (w : World) : outcome A * World :=
  match m with
  | Ret a => (Returned a, w)
  | Throw e => (Raised e, w)
  | Vis ev k => let '(x, w') := perform env ev w in run env (k x) w'
  end.

(** ** The upstream client *)

(** [`https://finnhub.io/api/v1/quote?symbol=${symbol}&token=${apiKey}`];
    an unset variable is interpolated as [undefined]. *)
Definition quote_url (symbol : string) (apiKey : option string) : string :=
  "https://finnhub.io/api/v1/quote?symbol=" +:+ symbol +:+ "&token=" +:+
  match apiKey with Some key => key | None => "undefined" end.

(** [await axios.get(url)]: a rejected promise resumes as a throw. *)
Definition axios_get (url : string) : prog json :=
  Vis (AxiosGet url)
      (fun r => match r with
                | Resolved response_data => Ret response_data
                | Rejected error => Throw error
                end).

(** [null] is [JNull]. *)
Definition fetchStockData (symbol : string) : prog json :=
  try_catch
    (let! apiKey := trigger ProcessEnvApiKey in
     let! response_data := axios_get (quote_url symbol apiKey) in
     Ret response_data)
    (fun error =>
       trigger (ConsoleWrite (ErrFetching symbol (message error)));;
       Ret JNull).

(** ** The bulk refresher *)

Definition MONITORED_STOCKS : list string :=
  [ "AAPL"; "MSFT"; "AMZN"; "GOOGL"; "META";
    "TSLA"; "NVDA"; "JPM"; "JNJ"; "V";
    "WMT"; "KO"; "PG"; "NFLX"; "DIS";
    "PFE"; "INTC"; "MA"; "UNH"; "VZ";
    "AMD"; "PYPL"; "ADBE"; "CRM"; "BA";
    "GE"; "SBUX"; "MCD"; "ABNB"; "UBER";
    "COST"; "TGT"; "F"; "NKE"; "T" ].

(** [for (const x of xs) { body x }] *)
Fixpoint for_of (xs : list string) (body : string -> prog unit) : prog unit :=
  match xs with
  | [] => Ret tt
  | x :: rest => body x;; for_of rest body
  end.

(** [console.log(`Updated ${symbol}: $${data.c}`)]: the template converts
    [data.c] to a string before anything is written, and the conversion can
    throw. *)
Definition log_updated (symbol : string) (fetched : json) : prog unit :=
  if member_stringifies "c" fetched
  then trigger (ConsoleWrite (LogUpdated symbol (js_member "c" fetched)))
  else Throw cannot_convert.

(** The body of the loop in [updateAllStocks], with its own [try]/[catch]. *)
Definition update_one (symbol : string) : prog unit :=
  try_catch
    (let! fetched := fetchStockData symbol in
     (if truthy fetched then
        let! now := trigger DateNow in
        trigger (CacheSet symbol {| data := fetched; timestamp := now |});;
        log_updated symbol fetched
      else Ret tt);;
     trigger (SetTimeout 1500))
    (fun err => trigger (ConsoleWrite (ErrFailedUpdate symbol err))).

Definition updateAllStocks : prog unit :=
  trigger (ConsoleWrite LogUpdating);;
  for_of MONITORED_STOCKS update_one;;
  let! now := trigger DateNow in
  trigger (SetLastUpdated now);;
  let! finished := trigger DateNow in
  trigger (ConsoleWrite (LogCompleted finished)).

(** ** HTTP requests and responses *)

(** What the query parser of Express can deliver as [req.query.symbol]:
    nothing, a string ([?symbol=AAPL]), an array ([?symbol[]=a&symbol[]=b],
    or the parameter repeated) or an object ([?symbol[key]=value]), arrays
    and objects nested. *)
Inductive QueryValue : Type :=
| QUndefined
| QStr (s : string)
| QArr (items : list QueryValue)
| QObj (fields : list (string * QueryValue)).

(** [!symbol]: only [undefined] and the empty string are falsy. *)
Definition query_falsy (q : QueryValue) : bool :=
  match q with
  | QUndefined => true
  | QStr s => String.eqb s ""
  | QArr _ => false
  | QObj _ => false
  end.

(** The string a query value is converted to where it is used as a property
    key ([quoteCache.data[symbol]]) or in a template literal; [None] when
    the conversion throws a [TypeError].  An array is joined with commas.
    An object converts to ["[object Object]"] through the [toString] it
    inherits; a [toString] member of its own, which the parser allows and
    which is never a function, makes the conversion throw. *)
Fixpoint to_property_key (q : QueryValue) : option string :=
  match q with
  | QUndefined => Some "undefined"
  | QStr s => Some s
  | QArr items =>
      (fix join (items : list QueryValue) : option string :=
         match items with
         | [] => Some ""
         | item :: rest =>
             match match item with
                   | QUndefined => Some ""
                   | _ => to_property_key item
                   end, join rest with
             | Some s, Some t =>
                 Some (match rest with [] => s | _ :: _ => s +:+ "," +:+ t end)
             | _, _ => None
             end
         end) items
  | QObj fields =>
      if has_field "toString" fields then None else Some "[object Object]"
  end.

(** A request as the handlers read it. *)
Record Request : Type := {
  method : string;
  path : string;
  query_symbol : QueryValue;      (* [req.query.symbol] *)
  origin : option string;         (* [req.headers.origin] *)
  ip : string
}.

(** What a handler hands to [res.json] or [res.send]. *)
Inductive Body : Type :=
| NoBody                          (* nothing sent by [proxy.js] *)
| JsonUndefined                   (* [res.json(undefined)]: an empty body *)
| JsonValue (v : json)
| JsonError (error : string)                       (* [{ error: ... }] *)
| JsonQuotes (last_updated : Z) (quotes : gmap string json)
| JsonStatus (status : string) (last_updated : Z) (stocksTracked : nat) (uptime : Q)
| TextBody (text : string).

Record Response : Type := {
  statusCode : Z;
  headers : gmap string string;
  body : Body
}.

Definition fresh_response : Response :=
  {| statusCode := 200; headers := ∅; body := NoBody |}.

(** [res.status(code)] *)
Definition res_status (code : Z) (res : Response) : Response :=
  {| statusCode := code; headers := headers res; body := body res |}.

(** [res.header(name, value)] *)
Definition res_header (name value : string) (res : Response) : Response :=
  {| statusCode := statusCode res; headers := <[name := value]> (headers res);
     body := body res |}.

(** [res.json(b)] and [res.send(b)].  [headers] holds the headers that
    middleware sets with [res.header] or [res.setHeader]; the headers Express
    computes from the body when it sends it (Content-Type, Content-Length,
    ETag) are not represented. *)
Definition res_send (b : Body) (res : Response) : Response :=
  {| statusCode := statusCode res; headers := headers res; body := b |}.

Definition Middleware : Type :=
  Request -> Response -> (Response -> prog Response) -> prog Response.

(** ** CORS *)

Definition allowedOrigins : list string :=
  [ "https://hw-invest.web.app"; "https://hw-invest.firebaseapp.com" ].

(** [allowedOrigins.includes(origin)]; a request without the header has
    [origin] undefined, which the list does not include. *)
Definition includes (xs : list string) (x : option string) : bool :=
  match x with
  | Some s => existsb (String.eqb s) xs
  | None => false
  end.

Definition allow_headers : string :=
  "Origin, X-Requested-With, Content-Type, Accept, X-API-Key".

(** The two [res.header] calls of the middleware. *)
Definition set_cors_headers (req : Request) (res : Response) : Response :=
  let res :=
    match origin req with
    | Some o =>
        if includes allowedOrigins (Some o)
        then res_header "Access-Control-Allow-Origin" o res
        else res
    | None => res
    end in
  res_header "Access-Control-Allow-Headers" allow_headers res.

Definition cors : Middleware := fun req res next =>
  next (set_cors_headers req res).

(** ** Rate limiting *)

Record RateLimitOptions : Type := {
  windowMs : Z;
  max : Z;
  standardHeaders : bool;
  legacyHeaders : bool;
  limit_message : string
}.

(** The options [proxy.js] passes to [rateLimit]. *)
Definition limiter_options : RateLimitOptions :=
  {| windowMs := 15 * 60 * 1000;
     max := 100;
     standardHeaders := true;
     legacyHeaders := false;
     limit_message := "Too many requests, please try again later" |}.

(** Modelled from the spec: the standard rate-limit response headers of the
    express-rate-limit package, which report the limit, what is left of it
    and the seconds until the window ends. *)
Definition rate_limit_headers (opts : RateLimitOptions) (hits : ClientHits)
    (now : Z) (res : Response) : Response :=
  if standardHeaders opts then
    res_header "RateLimit-Reset" (pretty ((resetTime hits - now + 999) / 1000))
      (res_header "RateLimit-Remaining" (pretty (Z.max 0 (max opts - totalHits hits)))
         (res_header "RateLimit-Limit" (pretty (max opts)) res))
  else res.

(** Modelled from the spec: the middleware returned by [rateLimit] belongs to
    the express-rate-limit package, whose code is not part of [proxy.js].  It
    counts the requests of each client IP inside a window of [windowMs]
    milliseconds; up to [max] of them are passed on, any further one is
    answered with the fixed message and is not passed on. *)
Definition rateLimit (opts : RateLimitOptions) : Middleware := fun req res next =>
  let! hits := trigger (LimiterIncrement (ip req) (windowMs opts)) in
  let! now := trigger DateNow in
  let res := rate_limit_headers opts hits now res in
  if max opts <? totalHits hits
  then Ret (res_send (TextBody (limit_message opts)) (res_status 429 res))
  else next res.

Definition limiter : Middleware := rateLimit limiter_options.

(** ** Routing

    Express compares the path of a request with a registered path without
    regard to letter case. *)
Definition lower_ascii (c : ascii) : ascii :=
  let n := nat_of_ascii c in
  if Nat.leb 65 n && Nat.leb n 90 then ascii_of_nat (n + 32) else c.

Fixpoint lower (s : string) : string :=
  match s with
  | EmptyString => EmptyString
  | String c rest => String (lower_ascii c) (lower rest)
  end.

(** [app.use('/api/', limiter)]: the limiter sees the requests whose path
    is [/api] or lies under it. *)
Definition under_api (p : string) : bool :=
  String.eqb (lower p) "/api" || String.prefix "/api/" (lower p).

Definition use_api (mw : Middleware) : Middleware := fun req res next =>
  if under_api (path req) then mw req res next else next res.

(** ** Route handlers *)

Definition THREE_MINUTES : Z := 3 * 60 * 1000.

(** The [try] statement of [GET /api/quote], lines 115 to 129. *)
Definition fetch_quote (symbol : string) (res : Response) : prog Response :=
  try_catch
    (let! fetched := fetchStockData symbol in
     if truthy fetched then
       let! now := trigger DateNow in
       trigger (CacheSet symbol {| data := fetched; timestamp := now |});;
       Ret (res_send (JsonValue fetched) res)
     else
       Ret (res_send (JsonError "Symbol data not available") (res_status 404 res)))
    (fun error =>
       trigger (ConsoleWrite (ErrProxy error));;
       Ret (res_send (JsonError "Failed to fetch data") (res_status 500 res))).

(** [res.json(v)] for a value that may be [undefined]. *)
Definition json_body (v : option json) : Body :=
  match v with
  | Some v => JsonValue v
  | None => JsonUndefined
  end.

(** The test of lines 109 and 110 and what follows it, for what
    [quoteCache.data[symbol]] evaluated to.  An entry is tested on its
    timestamp.  A falsy value ends the test at [&&].  A truthy value that is
    not an entry has no numeric [timestamp]: the age is [NaN] and the test
    fails, except for an inherited payload that has a member [timestamp] of
    its own, whose coercion decides. *)
Definition answer_looked (symbol : string) (looked : Looked) (res : Response)
    : prog Response :=
  match looked with
  | LEntry entry =>
      let! now := trigger DateNow in
      if now - timestamp entry <? THREE_MINUTES
      then Ret (res_send (JsonValue (data entry)) res)
      else fetch_quote symbol res
  | LPayload v =>
      if truthy v then
        let! now := trigger DateNow in
        match js_member "timestamp" v with
        | Some t =>
            let! below := trigger (AgeBelow now t THREE_MINUTES) in
            match below with
            | Some true => Ret (res_send (json_body (js_member "data" v)) res)
            | Some false => fetch_quote symbol res
            | None => Throw cannot_convert
            end
        | None => fetch_quote symbol res
        end
      else fetch_quote symbol res
  | LNumber t =>
      if t =? 0 then fetch_quote symbol res
      else trigger DateNow;; fetch_quote symbol res
  | LBuiltin => trigger DateNow;; fetch_quote symbol res
  | LUndefined => fetch_quote symbol res
  end.

(** [GET /api/quote].  [symbol] is converted to a string each time it is
    used as a property key or in a template; the first conversion is the one
    of line 109, before the [try], and the later ones give the same string.
    The handler reads [quoteCache.data[symbol]] up to three times in one
    synchronous stretch; the reads see the same object and are one
    [CacheGet] here. *)
Definition api_quote (req : Request) (res : Response) : prog Response :=
  if query_falsy (query_symbol req)
  then Ret (res_send (JsonError "Symbol parameter is required") (res_status 400 res))
  else
    match to_property_key (query_symbol req) with
    | None => Throw cannot_convert
    | Some symbol =>
        let! looked := trigger (CacheGet symbol) in
        answer_looked symbol looked res
    end.

(** [quoteCache.data[symbol].data]; [None] is [undefined].  Reading a
    property of [null] or [undefined] throws. *)
Definition looked_data (looked : Looked) : outcome (option json) :=
  match looked with
  | LEntry entry => Returned (Some (data entry))
  | LPayload JNull => Raised (cannot_read "null" "data")
  | LPayload v => Returned (js_member "data" v)
  | LNumber _ => Returned None
  | LBuiltin => Returned None
  | LUndefined => Raised (cannot_read "undefined" "data")
  end.

(** [result.data[symbol] = value].  [result.data] is a plain object too: an
    assignment to ["__proto__"] creates no property. *)
Definition result_assign (symbol : string) (value : option json)
    (result_data : gmap string (option json)) : gmap string (option json) :=
  if String.eqb symbol "__proto__" then result_data
  else <[symbol := value]> result_data.

(** [for (const symbol in quoteCache.data)
       result.data[symbol] = quoteCache.data[symbol].data] *)
Fixpoint copy_quotes (keys : list string) (result_data : gmap string (option json))
    : prog (gmap string (option json)) :=
  match keys with
  | [] => Ret result_data
  | symbol :: rest =>
      let! looked := trigger (CacheGet symbol) in
      match looked_data looked with
      | Returned value => copy_quotes rest (result_assign symbol value result_data)
      | Raised error => Throw error
      end
  end.

(** What [JSON.stringify] keeps of [result.data]: a property whose value is
    [undefined] is left out. *)
Definition serialized (result_data : gmap string (option json)) : gmap string json :=
  omap id result_data.

(** [GET /api/quotes] *)
Definition api_quotes (req : Request) (res : Response) : prog Response :=
  let! last_updated := trigger GetLastUpdated in
  let! keys := trigger CacheForIn in
  let! result_data := copy_quotes keys ∅ in
  Ret (res_send (JsonQuotes last_updated (serialized result_data)) res).

(** [GET /api/status] *)
Definition api_status (req : Request) (res : Response) : prog Response :=
  let! last_updated := trigger GetLastUpdated in
  let! keys := trigger CacheKeys in
  let! uptime := trigger ProcessUptime in
  Ret (res_send (JsonStatus "online" last_updated (length keys) uptime) res).

(** A route registered with [app.get] answers GET requests, and HEAD
    requests as well since no handler is registered for HEAD. *)
Definition get_or_head (m : string) : bool :=
  String.eqb m "GET" || String.eqb m "HEAD".

(** A route matches its path with or without one trailing slash. *)
Definition path_matches (route p : string) : bool :=
  String.eqb (lower p) route || String.eqb (lower p) (route +:+ "/").

(** The three [app.get] routes, in the order they are registered; anything
    else falls through to Express's default answer, a 404 whose body is not
    written by [proxy.js]. *)
Definition routes (req : Request) (res : Response) : prog Response :=
  if get_or_head (method req) && path_matches "/api/quote" (path req)
  then api_quote req res
  else if get_or_head (method req) && path_matches "/api/quotes" (path req)
  then api_quotes req res
  else if get_or_head (method req) && path_matches "/api/status" (path req)
  then api_status req res
  else Ret (res_send NoBody (res_status 404 res)).

(** The middleware chain in the order of the [app.use] calls, after
    [helmet()], whose headers are already in [res]. *)
Definition app (req : Request) (res : Response) : prog Response :=
  use_api limiter req res (fun res =>
  cors req res (fun res =>
  routes req res)).

(** A handler in flight; its response has been sent when it ends. *)
Definition serve (req : Request) (res : Response) : prog unit :=
  app req res;; Ret tt.

(** ** Observations on a sequential run *)

Definition result (env : Env) {A : Type} (m : prog A) (w : World) : outcome A :=
  (run env m w).1.

Definition exec (env : Env) {A : Type} (m : prog A) (w : World) : World :=
  (run env m w).2.

(** The mutations of [quoteCache] a run performs, in order. *)
Inductive StoreWrite : Type :=
| WroteEntry (symbol : string) (entry : CachedQuote)
| DeletedEntry (symbol : string)
| WroteLastUpdated (t : Z).

Definition write_of {X : Type} (ev : event X) : list StoreWrite :=
  match ev with
  | CacheSet symbol entry => [WroteEntry symbol entry]
  | CacheDelete symbol => [DeletedEntry symbol]
  | SetLastUpdated t => [WroteLastUpdated t]
  | _ => []
  end.

Fixpoint store_writes (env : Env) {A : Type} (m : prog A) (w : World) : list StoreWrite :=
  match m with
  | Ret _ => []
  | Throw _ => []
  | Vis ev k =>
      let '(x, w') := perform env ev w in
      write_of ev ++ store_writes env (k x) w'
  end.

(** The URL [fetchStockData] requests for [symbol]. *)
Definition url_of (env : Env) (symbol : string) : string :=
  quote_url symbol (FINNHUB_API_KEY env).

(** The world when the reply to a request for [url] issued in [w] arrives. *)
Definition replied (env : Env) (url : string) (w : World) : World :=
  set_clock (clock w + Z.of_N (upstream env (length (outbound w)) url).2)
    (set_outbound (outbound w ++ [url]) w).

(** What a value returned by [fetchStockData] is, [null] when it raised
    (which it never does, see [fetchStockData_total]). *)
Definition fetched (env : Env) (symbol : string) (w : World) : json :=
  match result env (fetchStockData symbol) w with
  | Returned v => v
  | Raised _ => JNull
  end.

(** The fetches of a refresh loop over [symbols] started in [w]: for each
    symbol in turn, what its fetch returned and the clock when the fetch
    came back. *)
Fixpoint pass_fetches (env : Env) (symbols : list string) (w : World)
    : list (string * json * Z) :=
  match symbols with
  | [] => []
  | symbol :: rest =>
      (symbol, fetched env symbol w, clock (exec env (fetchStockData symbol) w))
        :: pass_fetches env rest (exec env (update_one symbol) w)
  end.

(** The cache entry a successful fetch is stored as. *)
Definition entry_of (f : string * json * Z) : string * CachedQuote :=
  (f.1.1, {| data := f.1.2; timestamp := f.2 |}).

Definition succeeded (f : string * json * Z) : bool := truthy f.1.2.

(** The price of a succeeded fetch can be written to the log: the member
    [c] of the fetched value converts to a string, as every number, string,
    boolean or absent member does. *)
Definition loggable (f : string * json * Z) : Prop :=
  succeeded f = true -> member_stringifies "c" f.1.2 = true.

Definition loggableb (f : string * json * Z) : bool :=
  implb (succeeded f) (member_stringifies "c" f.1.2).

(** Requests served one after the other, each to completion. *)
Definition serve_all (env : Env) (reqs : list Request) (w : World) : World :=
  foldl (fun w req => exec env (app req fresh_response) w) w reqs.

(** ** Interleaved semantics

    On the event loop several handlers are in flight: the scheduler starts a
    refresh pass, requests arrive, and each task advances by one effect at a
    time.  JavaScript only switches tasks at an [await]; switching at every
    effect allows all of its schedules and more. *)
Definition System : Type := World * list (prog unit).

Inductive sys_step (env : Env) : System -> System -> Prop :=
| step_refresh w pool :
    sys_step env (w, pool) (w, pool ++ [updateAllStocks])
| step_request w pool req res :
    sys_step env (w, pool) (w, pool ++ [serve req res])
| step_task w pool i X (ev : event X) k :
    pool !! i = Some (Vis ev k) ->
    sys_step env (w, pool)
      ((perform env ev w).2, <[i := k (perform env ev w).1]> pool)
| step_tick w pool (d : N) :
    sys_step env (w, pool) (set_clock (clock w + Z.of_N d) w, pool).

Definition boot (start : Z) : System := (initial_world start, []).

Definition reachable (env : Env) (s : System) : Prop :=
  exists start, rtc (sys_step env) (boot start) s.

Definition cached_symbols (w : World) : gset string :=
  dom (qc_data (quoteCache w)).

(** [all_events P m]: every effect [m] can perform, whatever the answers it
    receives, satisfies [P]. *)
Fixpoint all_events (P : forall X, event X -> bool) {A : Type} (m : prog A) : Prop :=
  match m with
  | Ret _ => True
  | Throw _ => True
  | Vis ev k => P _ ev = true /\ forall x, all_events P (k x)
  end.

(** A program that never removes a property of [quoteCache.data]. *)
Definition keeps_entry (X : Type) (ev : event X) : bool :=
  match ev with
  | CacheDelete _ => false
  | _ => true
  end.

Definition no_delete {A : Type} (m : prog A) : Prop := all_events keeps_entry m.

(** A program that changes neither the cache nor the limiter's store. *)
Definition read_only_event (X : Type) (ev : event X) : bool :=
  match ev with
  | CacheSet _ _ => false
  | CacheDelete _ => false
  | SetLastUpdated _ => false
  | LimiterIncrement _ _ => false
  | _ => true
  end.

(** The effects of the route handlers and of the refresher: anything but
    removing an entry or counting a request. *)
Definition handler_event (X : Type) (ev : event X) : bool :=
  match ev with
  | CacheDelete _ => false
  | LimiterIncrement _ _ => false
  | _ => true
  end.

(** A program that leaves the limiter's store alone. *)
Definition beside_limiter (X : Type) (ev : event X) : bool :=
  match ev with
  | LimiterIncrement _ _ => false
  | _ => true
  end.

(** A program that stores only truthy payloads. *)
Definition sound_write (X : Type) (ev : event X) : bool :=
  match ev with
  | CacheSet symbol entry => truthy (data entry)
  | _ => true
  end.

(** Every object stored in the dictionary, as a property or as its
    prototype, holds a truthy payload. *)
Definition cache_sound (w : World) : Prop :=
  (forall symbol entry,
     qc_data (quoteCache w) !! symbol = Some entry -> truthy (data entry) = true) /\
  (forall entry, qc_proto (quoteCache w) = Some entry -> truthy (data entry) = true).

(** [all_returns Q m]: whatever [m] returns satisfies [Q]. *)
Fixpoint all_returns {A : Type} (Q : A -> Prop) (m : prog A) : Prop :=
  match m with
  | Ret a => Q a
  | Throw _ => True
  | Vis ev k => forall x, all_returns Q (k x)
  end.

(** The counter the limiter reads for [req] arriving in [w], and the state
    in which it hands the request on or rejects it. *)
Definition hits_for (req : Request) (w : World) : ClientHits :=
  store_increment (ip req) (windowMs limiter_options) (clock w) (limiterStore w).

Definition counted (req : Request) (w : World) : World :=
  set_limiterStore (<[ip req := hits_for req w]> (limiterStore w)) w.

(** The answer of the limiter to a request over the limit. *)
Definition too_many (req : Request) (res : Response) (w : World) : Response :=
  res_send (TextBody (limit_message limiter_options))
    (res_status 429 (rate_limit_headers limiter_options (hits_for req w) (clock w) res)).

(** The world when a timer of [ms] milliseconds set in [w] has fired. *)
Definition delayed (env : Env) (ms : Z) (w : World) : World :=
  set_clock (clock w + Z.max 0 ms + Z.of_N (timer_lag env (timers w)))
    (set_timers (S (timers w)) w).

(** The world in which the value [v] fetched for [symbol] has been stored,
    [w2] being the world the fetch came back in. *)
Definition stored (symbol : string) (v : json) (w2 : World) : World :=
  set_cache
    (cache_assign symbol {| data := v; timestamp := clock w2 |} (quoteCache w2)) w2.

(** The state in which an iteration of the refresh loop leaves the world
    [w2] its fetch came back in.  A truthy value is stored and logged, and
    the loop waits; when logging it throws, the [catch] clause logs the
    error instead and the loop does not wait.  A falsy value is neither
    stored nor logged, and the loop waits. *)
Definition iterated (env : Env) (symbol : string) (v : json) (w2 : World) : World :=
  if truthy v then
    if member_stringifies "c" v then
      delayed env 1500
        (set_console (console w2 ++ [LogUpdated symbol (js_member "c" v)])
           (stored symbol v w2))
    else
      set_console (console w2 ++ [ErrFailedUpdate symbol cannot_convert])
        (stored symbol v w2)
  else delayed env 1500 w2.

(** The world after the first and before the last statements of
    [updateAllStocks]. *)
Definition pass_started (w : World) : World :=
  set_console (console w ++ [LogUpdating]) w.

Definition pass_finished (w : World) : World :=
  set_console (console w ++ [LogCompleted (clock w)])
    (set_cache (with_lastUpdated (clock w) (quoteCache w)) w).

(** The store write a successful fetch results in. *)
Definition write_for (f : string * json * Z) : StoreWrite :=
  WroteEntry (entry_of f).1 (entry_of f).2.

(** A dictionary whose prototype is the one it was created with, and which
    has no own property called ["__proto__"] (no assignment creates one). *)
Definition plain_dictionary (c : QuoteCache) : Prop :=
  qc_proto c = None /\ qc_data c !! "__proto__" = None.

(** The request carries a [symbol] parameter that passes the guard
    [!symbol] and converts to the string [symbol]. *)
Definition asks_for (req : Request) (symbol : string) : Prop :=
  query_falsy (query_symbol req) = false /\
  to_property_key (query_symbol req) = Some symbol.

(** The value of the test of lines 109 and 110 of [GET /api/quote] for
    [symbol] in [w]: whether [quoteCache.data[symbol]] is there and less than
    three minutes old.  [None] when evaluating the test throws. *)
Definition is_fresh (env : Env) (symbol : string) (w : World) : option bool :=
  match cache_lookup symbol (quoteCache w) with
  | LEntry entry => Some (clock w - timestamp entry <? THREE_MINUTES)
  | LPayload v =>
      if truthy v then
        match js_member "timestamp" v with
        | Some t => age_below env (clock w) t THREE_MINUTES
        | None => Some false
        end
      else Some false
  | LNumber _ => Some false
  | LBuiltin => Some false
  | LUndefined => Some false
  end.

(** What [GET /api/quote] answers, and the state it leaves, when it has to
    ask the upstream for [symbol]. *)
Definition quote_fetched (env : Env) (symbol : string) (res : Response) (w : World)
    : outcome Response * World :=
  let v := fetched env symbol w in
  let w2 := exec env (fetchStockData symbol) w in
  if truthy v then
    (Returned (res_send (JsonValue v) res), stored symbol v w2)
  else
    (Returned (res_send (JsonError "Symbol data not available") (res_status 404 res)),
     w2).

(** A task that has run to its end. *)
Definition settled (env : Env) {A : Type} (m : prog A) (w : World) : prog A :=
  match result env m w with
  | Returned a => Ret a
  | Raised e => Throw e
  end.

(** No window of the limiter is open for [key] in [w]. *)
Definition window_closed (key : string) (w : World) : Prop :=
  forall c, limiterStore w !! key = Some c -> resetTime c <= clock w.

(** ** Sample inputs

    A quote as the provider returns it, an upstream that fails the second
    call it receives, one that fails every call, one that answers every call
    with the body [0], and a cache that already holds an old entry for
    MSFT. *)
Definition sample_quote : json := JObj [("c", JNum (Qmake 15025 100))].

Definition old_quote : json := JObj [("c", JNum (Qmake 300 1))].

(** [now - v < limit] where [v] is a number, [null] or a boolean; every
    other value is taken as not a number, which no sample relies on. *)
Definition sample_age_below (now : Z) (v : json) (limit : Z) : option bool :=
  match v with
  | JNum q => Some ((now - limit) * Z.pos (Qden q) <? Qnum q)
  | JNull => Some (now <? limit)
  | JBool b => Some (now - (if b then 1 else 0) <? limit)
  | _ => Some false
  end.

Definition sample_env : Env :=
  {| FINNHUB_API_KEY := Some "demo";
     upstream := fun n url =>
       if Nat.eqb n 1
       then (Rejected {| message := "Request failed with status code 429" |}, 30%N)
       else (Resolved sample_quote, 20%N);
     timer_lag := fun _ => 2%N;
     boot_time := 0;
     age_below := sample_age_below |}.

Definition down_env : Env :=
  {| FINNHUB_API_KEY := Some "demo";
     upstream := fun n url => (Rejected {| message := "timeout of 0ms exceeded" |}, 30%N);
     timer_lag := fun _ => 0%N;
     boot_time := 0;
     age_below := sample_age_below |}.

Definition zero_env : Env :=
  {| FINNHUB_API_KEY := Some "demo";
     upstream := fun n url => (Resolved (JNum (Qmake 0 1)), 20%N);
     timer_lag := fun _ => 0%N;
     boot_time := 0;
     age_below := sample_age_below |}.

(** An upstream whose answers wrap the quote in an envelope [{ data: ... }],
    and one whose quotes carry a price that is an object with a member
    [toString]. *)
Definition enveloped_quote : json := JObj [("data", sample_quote)].

Definition enveloped_env : Env :=
  {| FINNHUB_API_KEY := Some "demo";
     upstream := fun n url => (Resolved enveloped_quote, 20%N);
     timer_lag := fun _ => 0%N;
     boot_time := 0;
     age_below := sample_age_below |}.

Definition unloggable_quote : json :=
  JObj [("c", JObj [("toString", JNum (Qmake 0 1))])].

Definition unloggable_env : Env :=
  {| FINNHUB_API_KEY := Some "demo";
     upstream := fun n url => (Resolved unloggable_quote, 20%N);
     timer_lag := fun _ => 0%N;
     boot_time := 0;
     age_below := sample_age_below |}.

(** A network on which every request is answered 200 with a body that is
    not JSON. *)
Definition unparsed_network : nat -> string -> HttpReply * N :=
  fun n url => (HttpResponse 200 (OtherText "<html>Too Many Requests</html>"), 25%N).

Definition seeded_world (now : Z) : World :=
  set_cache {| qc_data := {[ "MSFT" := {| data := old_quote; timestamp := 400 |} ]};
               qc_proto := None;
               lastUpdated := 500 |}
    (initial_world now).

Definition quote_request (symbol : QueryValue) : Request :=
  {| method := "GET"; path := "/api/quote"; query_symbol := symbol;
     origin := Some "https://hw-invest.web.app"; ip := "203.0.113.7" |}.

Definition status_request : Request :=
  {| method := "GET"; path := "/api/status"; query_symbol := QUndefined;
     origin := None; ip := "203.0.113.7" |}.

(** A burst of requests from one client. *)
Definition burst : list Request := replicate 100 (quote_request (QStr "AAPL")).

(** The process after its first refresh pass, and after it has then served
    a request for a symbol outside the monitored list. *)
Definition first_pass_world : World :=
  exec sample_env updateAllStocks (initial_world 0).

Definition first_pass_pool : list (prog unit) :=
  [] ++ [settled sample_env updateAllStocks (initial_world 0)].

Definition after_first_pass : System := (first_pass_world, first_pass_pool).

Definition after_request : System :=
  (exec sample_env (serve (quote_request (QStr "IBM")) fresh_response) first_pass_world,
   first_pass_pool ++
   [settled sample_env (serve (quote_request (QStr "IBM")) fresh_response)
      first_pass_world]).




(** ** What a task in flight can rely on

    While a task waits, other tasks run.  What it knew stays true all the
    same as far as it is of this kind: a time the clock has reached, and
    keys under which [quoteCache.data[key].data] can be read, because the
    lookup yields neither [undefined] nor [null]. *)
Definition readable (key : string) (c : QuoteCache) : Prop :=
  exists value, looked_data (cache_lookup key c) = Returned value.

Record Known : Type := { k_clock : Z; k_readable : string -> Prop }.

Definition known_le (K K' : Known) : Prop :=
  k_clock K <= k_clock K' /\ forall key, k_readable K key -> k_readable K' key.

Definition known_of (w : World) : Known :=
  {| k_clock := clock w; k_readable := fun key => readable key (quoteCache w) |}.

(** The answers an effect can receive in a state of which [K] is known. *)
Definition answer_ok (env : Env) (K : Known) {X : Type} (ev : event X) : X -> Prop :=
  match ev in event X return X -> Prop with
  | ProcessEnvApiKey => fun x => x = FINNHUB_API_KEY env
  | DateNow => fun x => k_clock K <= x
  | CacheGet key => fun x => k_readable K key -> exists value, looked_data x = Returned value
  | CacheForIn => fun x => forall key, key ∈ x -> k_readable K key
  | _ => fun _ => True
  end.

(** What is known once the answer is there: reading the clock tells the
    time. *)
Definition learn (K : Known) {X : Type} (ev : event X) : X -> Known :=
  match ev in event X return X -> Known with
  | DateNow => fun x => {| k_clock := x; k_readable := k_readable K |}
  | _ => fun _ => K
  end.

(** What is asked of an effect: no entry and no [lastUpdated] is stamped
    with a time the clock has not reached, only truthy payloads are stored,
    and nothing is deleted. *)
Definition effect_ok (K : Known) {X : Type} (ev : event X) : Prop :=
  match ev with
  | CacheSet _ entry => timestamp entry <= k_clock K /\ truthy (data entry) = true
  | SetLastUpdated t => t <= k_clock K
  | CacheDelete _ => False
  | _ => True
  end.

(** [well_behaved env T m K]: started when [K] is known, and however other
    tasks interleave, [m] performs only effects that are [effect_ok], and
    when it ends by throwing, the error satisfies [T]. *)
Fixpoint well_behaved (env : Env) (T : JsError -> Prop) {A : Type}
    (m : prog A) (K : Known) : Prop :=
  match m with
  | Ret _ => True
  | Throw e => T e
  | Vis ev k =>
      forall K', known_le K K' ->
        effect_ok K' ev /\
        forall x, answer_ok env K' ev x ->
                  well_behaved env T (k x) (learn K' ev x)
  end.

(** [all_throws T m]: whatever answers [m] receives, an error it throws
    satisfies [T]. *)
Fixpoint all_throws {A : Type} (T : JsError -> Prop) (m : prog A) : Prop :=
  match m with
  | Ret _ => True
  | Throw e => T e
  | Vis ev k => forall x, all_throws T (k x)
  end.

(** The one error a task of the proxy can end with: the [TypeError] of a
    failed conversion. *)
Definition conversion_error (e : JsError) : Prop := e = cannot_convert.

Definition any_error (e : JsError) : Prop := True.

Definition no_error (e : JsError) : Prop := False.

(** No entry and no [lastUpdated] of [w] lies in the future of its clock;
    [lastUpdated] may still be the initial 0. *)
Definition stamps_ok (w : World) : Prop :=
  (forall symbol entry,
     qc_data (quoteCache w) !! symbol = Some entry -> timestamp entry <= clock w) /\
  (forall entry, qc_proto (quoteCache w) = Some entry -> timestamp entry <= clock w) /\
  (lastUpdated (quoteCache w) = 0 \/ lastUpdated (quoteCache w) <= clock w).

(** The invariant of the interleaved semantics: the stamps are in order,
    the stored payloads are truthy, and every task in flight is well behaved
    given what the state shows. *)
Definition pool_ok (env : Env) (s : System) : Prop :=
  stamps_ok s.1 /\ cache_sound s.1 /\
  Forall (fun m => well_behaved env conversion_error m (known_of s.1)) s.2.

(** * Properties *)

(** ** The sequential semantics and the control operators *)

(** Projections of a world built with the setters. *)
Ltac world_fields :=
  cbn [pass_started pass_finished delayed replied stored
       set_cache set_clock set_console set_outbound set_timers set_limiterStore
       quoteCache clock console outbound timers limiterStore
       with_entries with_proto with_lastUpdated
       qc_data qc_proto lastUpdated fst snd].

(** ** The dictionary *)

Lemma cache_lookup_own (key : string) (c : QuoteCache) (entry : CachedQuote) :
  qc_data c !! key = Some entry -> cache_lookup key c = LEntry entry.
Proof. intros Hentry. unfold cache_lookup. rewrite Hentry. reflexivity. Qed.

Lemma cache_assign_own (key : string) (entry : CachedQuote) (c : QuoteCache) :
  key <> "__proto__" ->
  cache_assign key entry c = with_entries (<[key := entry]> (qc_data c)) c.
Proof.
  intros Hkey. unfold cache_assign.
  destruct (qc_data c !! key); [reflexivity |].
  destruct (String.eqb_spec key "__proto__"); [contradiction | reflexivity].
Qed.

Lemma cache_assign_other (key : string) (entry : CachedQuote) (c : QuoteCache)
    (k : string) :
  k <> key -> qc_data (cache_assign key entry c) !! k = qc_data c !! k.
Proof.
  intros Hk. unfold cache_assign.
  destruct (qc_data c !! key); [apply lookup_insert_ne; congruence |].
  destruct (String.eqb key "__proto__"); [reflexivity |].
  apply lookup_insert_ne. congruence.
Qed.

Lemma cache_assign_lastUpdated (key : string) (entry : CachedQuote) (c : QuoteCache) :
  lastUpdated (cache_assign key entry c) = lastUpdated c.
Proof.
  unfold cache_assign. destruct (qc_data c !! key); [reflexivity |].
  destruct (String.eqb key "__proto__"); reflexivity.
Qed.

Lemma cache_assign_keeps (key : string) (entry : CachedQuote) (c : QuoteCache) :
  dom (qc_data c) ⊆ dom (qc_data (cache_assign key entry c)).
Proof.
  unfold cache_assign. destruct (qc_data c !! key).
  - cbn. rewrite dom_insert_L. apply union_subseteq_r.
  - destruct (String.eqb key "__proto__"); [reflexivity |].
    cbn. rewrite dom_insert_L. apply union_subseteq_r.
Qed.

(** What was assigned under a key is what a lookup of that key finds, for
    ["__proto__"] as for any other key. *)
Lemma cache_lookup_assign (key : string) (entry : CachedQuote) (c : QuoteCache) :
  cache_lookup key (cache_assign key entry c) = LEntry entry.
Proof.
  unfold cache_assign. destruct (qc_data c !! key) as [old |] eqn:Hold.
  - apply cache_lookup_own. apply lookup_insert_eq.
  - destruct (String.eqb_spec key "__proto__") as [-> | Hkey].
    + unfold cache_lookup. cbn. rewrite Hold. reflexivity.
    + apply cache_lookup_own. apply lookup_insert_eq.
Qed.

Section Sequential.
Context (env : Env).

Lemma run_bind {A B : Type} (m : prog A) (f : A -> prog B) (w : World) :
  run env (bind m f) w =
  match run env m w with
  | (Returned a, w') => run env (f a) w'
  | (Raised e, w') => (Raised e, w')
  end.
Proof.
  revert w. induction m as [a | e | X ev k IH]; intros w; simpl; try reflexivity.
  destruct (perform env ev w) as [x w']. apply IH.
Qed.

Lemma run_try_catch {A : Type} (m : prog A) (h : JsError -> prog A) (w : World) :
  run env (try_catch m h) w =
  match run env m w with
  | (Returned a, w') => (Returned a, w')
  | (Raised e, w') => run env (h e) w'
  end.
Proof.
  revert w. induction m as [a | e | X ev k IH]; intros w; simpl; try reflexivity.
  destruct (perform env ev w) as [x w']. apply IH.
Qed.

Lemma store_writes_bind {A B : Type} (m : prog A) (f : A -> prog B) (w : World) :
  store_writes env (bind m f) w =
  store_writes env m w ++
  match run env m w with
  | (Returned a, w') => store_writes env (f a) w'
  | (Raised _, _) => []
  end.
Proof.
  revert w. induction m as [a | e | X ev k IH]; intros w; simpl; try reflexivity.
  destruct (perform env ev w) as [x w']. rewrite IH, app_assoc. reflexivity.
Qed.

Lemma store_writes_try_catch {A : Type} (m : prog A) (h : JsError -> prog A) (w : World) :
  store_writes env (try_catch m h) w =
  store_writes env m w ++
  match run env m w with
  | (Returned _, _) => []
  | (Raised e, w') => store_writes env (h e) w'
  end.
Proof.
  revert w. induction m as [a | e | X ev k IH]; intros w; simpl; try reflexivity.
  destruct (perform env ev w) as [x w']. rewrite IH, app_assoc. reflexivity.
Qed.

(** *** [fetchStockData] *)

Lemma run_fetchStockData (symbol : string) (w : World) :
  run env (fetchStockData symbol) w =
  match (upstream env (length (outbound w)) (url_of env symbol)).1 with
  | Resolved response_data => (Returned response_data, replied env (url_of env symbol) w)
  | Rejected error =>
      (Returned JNull,
       set_console (console w ++ [ErrFetching symbol (message error)])
         (replied env (url_of env symbol) w))
  end.
Proof.
  unfold fetchStockData, replied, url_of. cbn.
  destruct (upstream env _ _) as [[response_data | error] latency]; reflexivity.
Qed.

Lemma store_writes_fetchStockData (symbol : string) (w : World) :
  store_writes env (fetchStockData symbol) w = [].
Proof.
  unfold fetchStockData. cbn.
  destruct (upstream env _ _) as [[response_data | error] latency]; reflexivity.
Qed.

Lemma fetchStockData_total (symbol : string) (w : World) :
  result env (fetchStockData symbol) w = Returned (fetched env symbol w).
Proof.
  unfold fetched, result. rewrite run_fetchStockData.
  destruct (upstream env _ _).1; reflexivity.
Qed.

Lemma run_fetchStockData_eq (symbol : string) (w : World) :
  run env (fetchStockData symbol) w =
  (Returned (fetched env symbol w), exec env (fetchStockData symbol) w).
Proof.
  unfold exec. rewrite (surjective_pairing (run env (fetchStockData symbol) w)) at 1.
  f_equal. apply fetchStockData_total.
Qed.

Lemma fetchStockData_frame (symbol : string) (w : World) :
  let w' := exec env (fetchStockData symbol) w in
  quoteCache w' = quoteCache w /\
  outbound w' = outbound w ++ [url_of env symbol] /\
  clock w <= clock w' /\
  timers w' = timers w /\
  limiterStore w' = limiterStore w.
Proof.
  unfold exec. rewrite run_fetchStockData.
  destruct (upstream env _ _).1; cbn; repeat split; lia.
Qed.

(** [fetchStockData] never raises.  Whatever the symbol and the state, it
    returns: the value [axios] resolved with, unmodified, and [null] after
    logging the symbol and the error message when [axios] rejected.  It does
    not write to the cache. *)
Lemma fetchStockData_never_raises (symbol : string) (w : World) :
  exists v w',
    run env (fetchStockData symbol) w = (Returned v, w') /\
    store_writes env (fetchStockData symbol) w = [] /\
    quoteCache w' = quoteCache w /\
    match (upstream env (length (outbound w)) (url_of env symbol)).1 with
    | Resolved response_data => v = response_data /\ console w' = console w
    | Rejected error =>
        v = JNull /\
        console w' = console w ++ [ErrFetching symbol (message error)]
    end.
Proof.
  rewrite run_fetchStockData, store_writes_fetchStockData.
  destruct (upstream env _ _).1 as [response_data | error];
    eexists _, _; repeat split; reflexivity.
Qed.

(** *** One iteration of the refresh loop *)

Lemma run_update_one (symbol : string) (w : World) :
  run env (update_one symbol) w =
  (Returned tt,
   iterated env symbol (fetched env symbol w) (exec env (fetchStockData symbol) w)).
Proof.
  unfold update_one. rewrite run_try_catch, run_bind, run_fetchStockData_eq.
  unfold iterated, log_updated.
  destruct (truthy (fetched env symbol w)); [| reflexivity].
  destruct (member_stringifies "c" (fetched env symbol w)); reflexivity.
Qed.

Lemma iterated_quoteCache (symbol : string) (v : json) (w2 : World) :
  quoteCache (iterated env symbol v w2) =
  if truthy v
  then cache_assign symbol {| data := v; timestamp := clock w2 |} (quoteCache w2)
  else quoteCache w2.
Proof.
  unfold iterated. destruct (truthy v); [| reflexivity].
  destruct (member_stringifies "c" v); reflexivity.
Qed.

Lemma update_one_quoteCache (symbol : string) (w : World) :
  quoteCache (exec env (update_one symbol) w) =
  if truthy (fetched env symbol w)
  then cache_assign symbol
         {| data := fetched env symbol w;
            timestamp := clock (exec env (fetchStockData symbol) w) |}
         (quoteCache w)
  else quoteCache w.
Proof.
  unfold exec at 1. rewrite run_update_one. cbn [snd]. rewrite iterated_quoteCache.
  destruct (fetchStockData_frame symbol w) as (Hc & _). rewrite Hc. reflexivity.
Qed.

Lemma update_one_cache (symbol : string) (w : World) :
  symbol <> "__proto__" ->
  qc_data (quoteCache (exec env (update_one symbol) w)) =
  if truthy (fetched env symbol w)
  then <[symbol := {| data := fetched env symbol w;
                      timestamp := clock (exec env (fetchStockData symbol) w) |}]>
         (qc_data (quoteCache w))
  else qc_data (quoteCache w).
Proof.
  intros Hkey. rewrite update_one_quoteCache.
  destruct (truthy (fetched env symbol w)); [| reflexivity].
  rewrite cache_assign_own by exact Hkey. reflexivity.
Qed.

Lemma update_one_other (symbol : string) (w : World) (k : string) :
  k <> symbol ->
  qc_data (quoteCache (exec env (update_one symbol) w)) !! k =
  qc_data (quoteCache w) !! k.
Proof.
  intros Hk. rewrite update_one_quoteCache.
  destruct (truthy (fetched env symbol w)); [| reflexivity].
  apply cache_assign_other, Hk.
Qed.

Lemma update_one_falsy (symbol : string) (w : World) :
  truthy (fetched env symbol w) = false ->
  quoteCache (exec env (update_one symbol) w) = quoteCache w.
Proof. intros Hv. rewrite update_one_quoteCache, Hv. reflexivity. Qed.

Lemma update_one_lastUpdated (symbol : string) (w : World) :
  lastUpdated (quoteCache (exec env (update_one symbol) w)) = lastUpdated (quoteCache w).
Proof.
  rewrite update_one_quoteCache.
  destruct (truthy (fetched env symbol w)); [| reflexivity].
  apply cache_assign_lastUpdated.
Qed.

Lemma update_one_outbound (symbol : string) (w : World) :
  outbound (exec env (update_one symbol) w) = outbound w ++ [url_of env symbol].
Proof.
  unfold exec at 1. rewrite run_update_one. unfold iterated.
  destruct (fetchStockData_frame symbol w) as (_ & Ho & _). revert Ho.
  generalize (exec env (fetchStockData symbol) w) as w2. intros w2 Ho.
  destruct (truthy (fetched env symbol w));
    [destruct (member_stringifies "c" (fetched env symbol w)) |]; cbn; exact Ho.
Qed.

(** The clock when an iteration ends is not before the clock when its fetch
    came back, and 1500 ms after it or later when the iteration waited. *)
Lemma update_one_clock (symbol : string) (w : World) :
  clock (exec env (fetchStockData symbol) w) <= clock (exec env (update_one symbol) w).
Proof.
  unfold exec at 2. rewrite run_update_one. unfold iterated.
  generalize (exec env (fetchStockData symbol) w) as w2. intros w2.
  destruct (truthy (fetched env symbol w));
    [destruct (member_stringifies "c" (fetched env symbol w)) |]; cbn; lia.
Qed.

Lemma update_one_waits (symbol : string) (w : World) :
  (truthy (fetched env symbol w) = true ->
   member_stringifies "c" (fetched env symbol w) = true) ->
  clock (exec env (fetchStockData symbol) w) + 1500
  <= clock (exec env (update_one symbol) w).
Proof.
  intros Hlog. unfold exec at 2. rewrite run_update_one. unfold iterated.
  generalize (exec env (fetchStockData symbol) w) as w2. intros w2.
  destruct (truthy (fetched env symbol w)); [rewrite Hlog by reflexivity |];
    cbn; lia.
Qed.

Lemma update_one_writes (symbol : string) (w : World) :
  store_writes env (update_one symbol) w =
  if truthy (fetched env symbol w)
  then [WroteEntry symbol {| data := fetched env symbol w;
                             timestamp := clock (exec env (fetchStockData symbol) w) |}]
  else [].
Proof.
  unfold update_one.
  rewrite store_writes_try_catch, !store_writes_bind, store_writes_fetchStockData.
  rewrite !run_bind, run_fetchStockData_eq. unfold log_updated.
  destruct (truthy (fetched env symbol w)); [| reflexivity].
  destruct (member_stringifies "c" (fetched env symbol w)); reflexivity.
Qed.

(** *** The refresh loop *)

Lemma run_for_of_cons (symbol : string) (rest : list string) (w : World) :
  run env (for_of (symbol :: rest) update_one) w =
  run env (for_of rest update_one) (exec env (update_one symbol) w).
Proof.
  cbn [for_of]. rewrite run_bind. unfold exec. rewrite run_update_one. reflexivity.
Qed.

Lemma exec_for_of_cons (symbol : string) (rest : list string) (w : World) :
  exec env (for_of (symbol :: rest) update_one) w =
  exec env (for_of rest update_one) (exec env (update_one symbol) w).
Proof. unfold exec at 1 2. rewrite run_for_of_cons. reflexivity. Qed.

Lemma for_of_returns (symbols : list string) (w : World) :
  result env (for_of symbols update_one) w = Returned tt.
Proof.
  revert w. induction symbols as [| symbol rest IH]; intros w; [reflexivity |].
  unfold result. rewrite run_for_of_cons. apply IH.
Qed.

Lemma exec_for_of_app (pre post : list string) (w : World) :
  exec env (for_of (pre ++ post) update_one) w =
  exec env (for_of post update_one) (exec env (for_of pre update_one) w).
Proof.
  revert w. induction pre as [| symbol pre IH]; intros w; [reflexivity |].
  change ((symbol :: pre) ++ post) with (symbol :: (pre ++ post)).
  rewrite !exec_for_of_cons. apply IH.
Qed.

Lemma for_of_outbound (symbols : list string) (w : World) :
  outbound (exec env (for_of symbols update_one) w) =
  outbound w ++ map (url_of env) symbols.
Proof.
  revert w. induction symbols as [| symbol rest IH]; intros w.
  - cbn. rewrite app_nil_r. reflexivity.
  - rewrite exec_for_of_cons, IH, update_one_outbound, <- app_assoc. reflexivity.
Qed.

Lemma for_of_clock (symbols : list string) (w : World) :
  clock w <= clock (exec env (for_of symbols update_one) w).
Proof.
  revert w. induction symbols as [| symbol rest IH]; intros w; [reflexivity |].
  rewrite exec_for_of_cons. etrans; [| apply IH].
  pose proof (update_one_clock symbol w).
  destruct (fetchStockData_frame symbol w) as (_ & _ & Hc & _). lia.
Qed.

Lemma for_of_other_symbol (symbols : list string) (w : World) (k : string) :
  k ∉ symbols ->
  qc_data (quoteCache (exec env (for_of symbols update_one) w)) !! k =
  qc_data (quoteCache w) !! k.
Proof.
  revert w. induction symbols as [| symbol rest IH]; intros w Hk; [reflexivity |].
  apply not_elem_of_cons in Hk as [Hne Hk].
  rewrite exec_for_of_cons, IH by assumption.
  apply update_one_other, Hne.
Qed.

Lemma pass_fetches_symbols (symbols : list string) (w : World) :
  (pass_fetches env symbols w).*1.*1 = symbols.
Proof.
  revert w. induction symbols as [| symbol rest IH]; intros w; [reflexivity |].
  cbn. f_equal. apply IH.
Qed.

Lemma pass_fetches_elem (symbols : list string) (w : World) (f : string * json * Z) :
  f ∈ pass_fetches env symbols w -> f.1.1 ∈ symbols.
Proof.
  intros Hf. rewrite <- (pass_fetches_symbols symbols w).
  apply list_elem_of_fmap. exists f.1. split; [reflexivity |].
  apply list_elem_of_fmap. exists f. split; [reflexivity | assumption].
Qed.

Lemma for_of_fetched_symbol (symbols : list string) (w : World) (f : string * json * Z) :
  NoDup symbols ->
  "__proto__" ∉ symbols ->
  f ∈ pass_fetches env symbols w ->
  qc_data (quoteCache (exec env (for_of symbols update_one) w)) !! f.1.1 =
  if succeeded f then Some (entry_of f).2 else qc_data (quoteCache w) !! f.1.1.
Proof.
  revert w. induction symbols as [| symbol rest IH]; intros w Hnd Hkeys Hf.
  - cbn in Hf. apply elem_of_nil in Hf as [].
  - apply NoDup_cons in Hnd as [Hfresh Hnd].
    apply not_elem_of_cons in Hkeys as [Hkey Hkeys].
    rewrite exec_for_of_cons. cbn [pass_fetches] in Hf.
    apply elem_of_cons in Hf as [-> | Hf].
    + cbn [fst snd]. rewrite for_of_other_symbol by assumption.
      rewrite update_one_cache by congruence. unfold succeeded, entry_of. cbn [fst snd].
      destruct (truthy _); [apply lookup_insert_eq | reflexivity].
    + rewrite IH by assumption.
      destruct (succeeded f); [reflexivity |].
      apply update_one_other. intros Heq.
      apply Hfresh. rewrite <- Heq. eapply pass_fetches_elem, Hf.
Qed.

Lemma for_of_fetch_times (symbols : list string) (w : World) (f : string * json * Z) :
  f ∈ pass_fetches env symbols w ->
  f.2 <= clock (exec env (for_of symbols update_one) w).
Proof.
  revert w. induction symbols as [| symbol rest IH]; intros w Hf.
  - cbn in Hf. apply elem_of_nil in Hf as [].
  - rewrite exec_for_of_cons. cbn [pass_fetches] in Hf.
    apply elem_of_cons in Hf as [-> | Hf]; [| apply IH, Hf].
    cbn [snd]. etrans; [| apply for_of_clock].
    apply update_one_clock.
Qed.

Lemma for_of_writes (symbols : list string) (w : World) :
  store_writes env (for_of symbols update_one) w =
  write_for <$> filter (fun f => succeeded f = true) (pass_fetches env symbols w).
Proof.
  revert w. induction symbols as [| symbol rest IH]; intros w; [reflexivity |].
  cbn [for_of pass_fetches]. rewrite store_writes_bind, update_one_writes.
  assert (Hrun : run env (update_one symbol) w =
                 (Returned tt, exec env (update_one symbol) w)).
  { unfold exec. rewrite run_update_one. reflexivity. }
  rewrite Hrun, IH, filter_cons.
  destruct (truthy (fetched env symbol w)) eqn:Hv.
  - rewrite decide_True by exact Hv. reflexivity.
  - rewrite decide_False; [reflexivity |].
    unfold succeeded. cbn [fst snd]. rewrite Hv. discriminate.
Qed.

(** *** [updateAllStocks] *)

Lemma MONITORED_STOCKS_NoDup : NoDup MONITORED_STOCKS.
Proof. apply (bool_decide_unpack (NoDup MONITORED_STOCKS)). vm_compute. exact I. Qed.

(** No ticker of the list is the key of the prototype. *)
Lemma MONITORED_STOCKS_own : "__proto__" ∉ MONITORED_STOCKS.
Proof. apply (bool_decide_unpack ("__proto__" ∉ MONITORED_STOCKS)). vm_compute. exact I. Qed.

Lemma run_updateAllStocks (w : World) :
  run env updateAllStocks w =
  (Returned tt,
   pass_finished (exec env (for_of MONITORED_STOCKS update_one) (pass_started w))).
Proof.
  unfold updateAllStocks. generalize MONITORED_STOCKS as symbols. intros symbols.
  rewrite run_bind. cbn [trigger run perform]. fold (pass_started w).
  rewrite run_bind.
  rewrite (surjective_pairing (run env (for_of symbols update_one) (pass_started w))).
  fold (result env (for_of symbols update_one) (pass_started w)).
  fold (exec env (for_of symbols update_one) (pass_started w)).
  rewrite for_of_returns. reflexivity.
Qed.

Lemma result_updateAllStocks (w : World) :
  result env updateAllStocks w = Returned tt.
Proof. unfold result. rewrite run_updateAllStocks. reflexivity. Qed.

Lemma exec_updateAllStocks (w : World) :
  exec env updateAllStocks w =
  pass_finished (exec env (for_of MONITORED_STOCKS update_one) (pass_started w)).
Proof. unfold exec at 1. rewrite run_updateAllStocks. reflexivity. Qed.

Lemma store_writes_updateAllStocks (w : World) :
  store_writes env updateAllStocks w =
  (write_for <$> filter (fun f => succeeded f = true)
                   (pass_fetches env MONITORED_STOCKS (pass_started w)))
  ++ [WroteLastUpdated
        (clock (exec env (for_of MONITORED_STOCKS update_one) (pass_started w)))].
Proof.
  unfold updateAllStocks. generalize MONITORED_STOCKS as symbols. intros symbols.
  rewrite store_writes_bind. cbn [trigger run perform store_writes write_of app].
  fold (pass_started w).
  rewrite store_writes_bind, for_of_writes.
  rewrite (surjective_pairing (run env (for_of symbols update_one) (pass_started w))).
  fold (result env (for_of symbols update_one) (pass_started w)).
  fold (exec env (for_of symbols update_one) (pass_started w)).
  rewrite for_of_returns. reflexivity.
Qed.

(** C1: a failed fetch does not stop the pass.  Take any symbol of the
    monitored list whose fetch, in the state the pass has reached when its
    turn comes, returns [null].  The pass still runs to its end without
    raising; the upstream is asked for every symbol of the list in order,
    those after the failed one included; the iteration of the failed symbol
    leaves the whole cache as it found it; and at the end of the pass the
    entry of that symbol is the one stored before the pass, if there was
    one. *)
Theorem updateAllStocks_isolates_failures
    (w : World) (pre post : list string) (symbol : string) :
  MONITORED_STOCKS = pre ++ symbol :: post ->
  fetched env symbol (exec env (for_of pre update_one) (pass_started w)) = JNull ->
  result env updateAllStocks w = Returned tt /\
  outbound (exec env updateAllStocks w) =
    outbound w ++ map (url_of env) pre ++ url_of env symbol :: map (url_of env) post /\
  quoteCache (exec env (update_one symbol)
                (exec env (for_of pre update_one) (pass_started w))) =
    quoteCache (exec env (for_of pre update_one) (pass_started w)) /\
  qc_data (quoteCache (exec env updateAllStocks w)) !! symbol =
    qc_data (quoteCache w) !! symbol.
Proof.
  intros Hlist Hnull.
  pose proof MONITORED_STOCKS_NoDup as Hnd. rewrite Hlist in Hnd.
  apply NoDup_app in Hnd as (_ & Hpre & Hnd).
  apply NoDup_cons in Hnd as [Hpost _].
  assert (Hfalsy : truthy (fetched env symbol
            (exec env (for_of pre update_one) (pass_started w))) = false)
    by (rewrite Hnull; reflexivity).
  rewrite result_updateAllStocks, !exec_updateAllStocks.
  split; [reflexivity |]. split; [| split].
  - world_fields. rewrite for_of_outbound, Hlist, map_app. reflexivity.
  - apply update_one_falsy, Hfalsy.
  - world_fields. rewrite Hlist, exec_for_of_app, exec_for_of_cons.
    rewrite for_of_other_symbol by exact Hpost.
    rewrite update_one_falsy by exact Hfalsy.
    rewrite for_of_other_symbol; [reflexivity |].
    intros Hin. apply (Hpre symbol Hin). left.
Qed.

(** C4: one full pass.  Call a fetch of the pass succeeded when the value it
    returned passes the test [if (data)].  The pass performs exactly one
    cache write for each succeeded fetch, in list order, followed by exactly
    one write of [lastUpdated]; that last write happens whether or not any
    fetch succeeded.  Afterwards every succeeded symbol holds the value and
    time of its fetch, every failed symbol and every symbol outside the list
    holds what it held before the pass, and [lastUpdated] is the clock at
    the end of the pass, at or after every fetch of the pass. *)
Theorem updateAllStocks_full_pass (w : World) :
  let fetches := pass_fetches env MONITORED_STOCKS (pass_started w) in
  let w' := exec env updateAllStocks w in
  result env updateAllStocks w = Returned tt /\
  fetches.*1.*1 = MONITORED_STOCKS /\
  store_writes env updateAllStocks w =
    (write_for <$> filter (fun f => succeeded f = true) fetches)
    ++ [WroteLastUpdated (lastUpdated (quoteCache w'))] /\
  (forall f, f ∈ fetches -> succeeded f = true ->
     qc_data (quoteCache w') !! f.1.1 = Some (entry_of f).2 /\
     f.2 <= lastUpdated (quoteCache w')) /\
  (forall f, f ∈ fetches -> succeeded f = false ->
     qc_data (quoteCache w') !! f.1.1 = qc_data (quoteCache w) !! f.1.1) /\
  (forall k, k ∉ MONITORED_STOCKS ->
     qc_data (quoteCache w') !! k = qc_data (quoteCache w) !! k) /\
  lastUpdated (quoteCache w') = clock w' /\
  clock w <= lastUpdated (quoteCache w').
Proof.
  intros fetches w'. subst fetches w'.
  rewrite result_updateAllStocks, !exec_updateAllStocks.
  rewrite store_writes_updateAllStocks.
  split; [reflexivity |]. split; [apply pass_fetches_symbols |].
  split; [reflexivity |]. split; [| split; [| split; [| split]]].
  - intros f Hf Hs. world_fields. split.
    + rewrite (for_of_fetched_symbol _ _ f MONITORED_STOCKS_NoDup MONITORED_STOCKS_own Hf), Hs. reflexivity.
    + apply for_of_fetch_times, Hf.
  - intros f Hf Hs. world_fields.
    rewrite (for_of_fetched_symbol _ _ f MONITORED_STOCKS_NoDup MONITORED_STOCKS_own Hf), Hs. reflexivity.
  - intros k Hk. world_fields. rewrite for_of_other_symbol by exact Hk. reflexivity.
  - reflexivity.
  - world_fields. etrans; [| apply for_of_clock]. world_fields. lia.
Qed.

(** *** [GET /api/quote] *)

Lemma asks_for_string (req : Request) (symbol : string) :
  query_symbol req = QStr symbol -> symbol <> "" -> asks_for req symbol.
Proof.
  intros Hq Hne. unfold asks_for. rewrite Hq. cbn.
  split; [apply String.eqb_neq, Hne | reflexivity].
Qed.

Lemma run_fetch_quote (symbol : string) (res : Response) (w : World) :
  run env (fetch_quote symbol res) w = quote_fetched env symbol res w.
Proof.
  unfold fetch_quote. rewrite run_try_catch, run_bind, run_fetchStockData_eq.
  unfold quote_fetched. destruct (truthy (fetched env symbol w)); reflexivity.
Qed.

Lemma store_writes_fetch_quote (symbol : string) (res : Response) (w : World) :
  store_writes env (fetch_quote symbol res) w =
  if truthy (fetched env symbol w)
  then [WroteEntry symbol {| data := fetched env symbol w;
                             timestamp := clock (exec env (fetchStockData symbol) w) |}]
  else [].
Proof.
  unfold fetch_quote.
  rewrite store_writes_try_catch, store_writes_bind, store_writes_fetchStockData.
  rewrite run_bind, run_fetchStockData_eq.
  destruct (truthy (fetched env symbol w)); reflexivity.
Qed.

Lemma is_fresh_entry (symbol : string) (w : World) (entry : CachedQuote) :
  qc_data (quoteCache w) !! symbol = Some entry ->
  is_fresh env symbol w = Some (clock w - timestamp entry <? THREE_MINUTES).
Proof.
  intros Hentry. unfold is_fresh. rewrite (cache_lookup_own _ _ _ Hentry). reflexivity.
Qed.

Lemma run_api_quote_fresh (req : Request) (res : Response) (w : World)
    (symbol : string) (entry : CachedQuote) :
  asks_for req symbol ->
  cache_lookup symbol (quoteCache w) = LEntry entry ->
  clock w - timestamp entry < THREE_MINUTES ->
  run env (api_quote req res) w = (Returned (res_send (JsonValue (data entry)) res), w).
Proof.
  intros [Hfalsy Hkey] Hentry Hfresh. unfold api_quote. rewrite Hfalsy, Hkey.
  cbn [bind trigger run perform]. rewrite Hentry. cbn [answer_looked bind trigger run perform].
  destruct (Z.ltb_spec (clock w - timestamp entry) THREE_MINUTES) as [_ | Hge]; [| lia].
  reflexivity.
Qed.

Lemma run_api_quote_fetch (req : Request) (res : Response) (w : World) (symbol : string) :
  asks_for req symbol ->
  is_fresh env symbol w = Some false ->
  run env (api_quote req res) w = quote_fetched env symbol res w.
Proof.
  intros [Hfalsy Hkey] Hstale. unfold api_quote. rewrite Hfalsy, Hkey.
  cbn [bind trigger run perform]. unfold is_fresh in Hstale.
  destruct (cache_lookup symbol (quoteCache w)) as [entry | v | t | |];
    cbn [answer_looked].
  - injection Hstale as Hstale. cbn [bind trigger run perform]. rewrite Hstale.
    apply run_fetch_quote.
  - destruct (truthy v); [| apply run_fetch_quote]. cbn [bind trigger run perform].
    destruct (js_member "timestamp" v) as [t |]; [| apply run_fetch_quote].
    cbn [bind trigger run perform]. rewrite Hstale. apply run_fetch_quote.
  - destruct (t =? 0); [apply run_fetch_quote |].
    cbn [bind trigger run perform]. apply run_fetch_quote.
  - cbn [bind trigger run perform]. apply run_fetch_quote.
  - apply run_fetch_quote.
Qed.

Lemma run_api_quote_missing (req : Request) (res : Response) (w : World) :
  query_falsy (query_symbol req) = true ->
  run env (api_quote req res) w =
  (Returned (res_send (JsonError "Symbol parameter is required") (res_status 400 res)), w).
Proof. intros Hq. unfold api_quote. rewrite Hq. reflexivity. Qed.

Lemma store_writes_api_quote_fetch (req : Request) (res : Response) (w : World)
    (symbol : string) :
  asks_for req symbol ->
  is_fresh env symbol w = Some false ->
  store_writes env (api_quote req res) w =
  if truthy (fetched env symbol w)
  then [WroteEntry symbol {| data := fetched env symbol w;
                             timestamp := clock (exec env (fetchStockData symbol) w) |}]
  else [].
Proof.
  intros [Hfalsy Hkey] Hstale. unfold api_quote. rewrite Hfalsy, Hkey.
  cbn [bind trigger run perform store_writes write_of app]. unfold is_fresh in Hstale.
  destruct (cache_lookup symbol (quoteCache w)) as [entry | v | t | |];
    cbn [answer_looked].
  - injection Hstale as Hstale.
    cbn [bind trigger run perform store_writes write_of app]. rewrite Hstale.
    apply store_writes_fetch_quote.
  - destruct (truthy v); [| apply store_writes_fetch_quote].
    cbn [bind trigger run perform store_writes write_of app].
    destruct (js_member "timestamp" v) as [t |]; [| apply store_writes_fetch_quote].
    cbn [bind trigger run perform store_writes write_of app]. rewrite Hstale.
    apply store_writes_fetch_quote.
  - destruct (t =? 0); [apply store_writes_fetch_quote |].
    cbn [bind trigger run perform store_writes write_of app].
    apply store_writes_fetch_quote.
  - cbn [bind trigger run perform store_writes write_of app].
    apply store_writes_fetch_quote.
  - apply store_writes_fetch_quote.
Qed.

(** C7: [GET /api/quote] without a [symbol] parameter is answered 400 with
    the body [{ error: 'Symbol parameter is required' }], whatever the rest
    of the request, the cache and the environment; the state is left as it
    was. *)
Theorem api_quote_missing_symbol (req : Request) (res : Response) (w : World) :
  query_symbol req = QUndefined ->
  exists resp,
    run env (api_quote req res) w = (Returned resp, w) /\
    statusCode resp = 400 /\
    body resp = JsonError "Symbol parameter is required".
Proof.
  intros Hq. eexists. split; [apply run_api_quote_missing; rewrite Hq; reflexivity |].
  split; reflexivity.
Qed.

(** C2: the freshness window of [GET /api/quote?symbol=S].  Let the cache
    hold payload [P] written at time [T] for [S].  A request before
    [T + 180 s] is answered 200 with body [P] and leaves the state unchanged,
    so no upstream call is made; a request at [T + 180 s] or later sends one
    request for [S] upstream. *)
Theorem api_quote_freshness (req : Request) (res : Response) (w : World)
    (symbol : string) (P : json) (T : Z) :
  query_symbol req = QStr symbol ->
  symbol <> "" ->
  statusCode res = 200 ->
  qc_data (quoteCache w) !! symbol = Some {| data := P; timestamp := T |} ->
  (clock w < T + 180 * 1000 ->
     exists resp,
       run env (api_quote req res) w = (Returned resp, w) /\
       statusCode resp = 200 /\ body resp = JsonValue P) /\
  (T + 180 * 1000 <= clock w ->
     outbound (exec env (api_quote req res) w) = outbound w ++ [url_of env symbol]).
Proof.
  intros Hq Hne Hstatus Hentry.
  pose proof (asks_for_string req symbol Hq Hne) as Hasks.
  split; intros Htime.
  - eexists. split.
    + eapply run_api_quote_fresh;
        [exact Hasks | apply cache_lookup_own, Hentry |].
      cbn. unfold THREE_MINUTES. lia.
    + split; [exact Hstatus | reflexivity].
  - unfold exec. rewrite (run_api_quote_fetch req res w symbol Hasks).
    + unfold quote_fetched.
      destruct (fetchStockData_frame symbol w) as (_ & Ho & _).
      destruct (truthy (fetched env symbol w)); exact Ho.
    + rewrite (is_fresh_entry _ _ _ Hentry). cbn. unfold THREE_MINUTES.
      f_equal. apply Z.ltb_ge. lia.
Qed.

(** C10: a stale entry is not a fallback.  When the entry of [S] is three
    minutes old or older and the upstream fetch returns [null], the answer
    is 404 and the cache is exactly as before: the handler performs no
    store write. *)
Theorem api_quote_stale_and_absent (req : Request) (res : Response) (w : World)
    (symbol : string) (entry : CachedQuote) :
  query_symbol req = QStr symbol ->
  symbol <> "" ->
  qc_data (quoteCache w) !! symbol = Some entry ->
  timestamp entry + THREE_MINUTES <= clock w ->
  fetched env symbol w = JNull ->
  exists resp w',
    run env (api_quote req res) w = (Returned resp, w') /\
    statusCode resp = 404 /\
    body resp = JsonError "Symbol data not available" /\
    store_writes env (api_quote req res) w = [] /\
    quoteCache w' = quoteCache w /\
    qc_data (quoteCache w') !! symbol = Some entry.
Proof.
  intros Hq Hne Hentry Hstale Hnull.
  pose proof (asks_for_string req symbol Hq Hne) as Hasks.
  assert (Hold : is_fresh env symbol w = Some false).
  { rewrite (is_fresh_entry _ _ _ Hentry). f_equal. apply Z.ltb_ge. lia. }
  rewrite (run_api_quote_fetch req res w symbol Hasks Hold).
  rewrite (store_writes_api_quote_fetch req res w symbol Hasks Hold).
  unfold quote_fetched. rewrite Hnull. cbn [truthy].
  destruct (fetchStockData_frame symbol w) as (Hc & _).
  eexists _, _. split; [reflexivity |].
  split; [reflexivity |]. split; [reflexivity |]. split; [reflexivity |].
  split; [exact Hc | rewrite Hc; exact Hentry].
Qed.

(** *** [GET /api/quotes] *)

Lemma run_copy_quotes (keys : list string) (acc : gmap string (option json)) (w : World) :
  (forall k, k ∈ keys -> k <> "__proto__" /\ is_Some (qc_data (quoteCache w) !! k)) ->
  exists result_data,
    run env (copy_quotes keys acc) w = (Returned result_data, w) /\
    forall k, result_data !! k =
              if decide (k ∈ keys)
              then (fun entry => Some (data entry)) <$> qc_data (quoteCache w) !! k
              else acc !! k.
Proof.
  revert acc. induction keys as [| symbol rest IH]; intros acc Hkeys.
  - exists acc. split; [reflexivity |]. intros k.
    rewrite decide_False by apply not_elem_of_nil. reflexivity.
  - destruct (Hkeys symbol) as [Hown [e He]]; [left |].
    destruct (IH (<[symbol := Some (data e)]> acc)) as (r & Hrun & Hr).
    { intros k Hk. apply Hkeys. right. exact Hk. }
    exists r. split.
    + cbn [copy_quotes bind trigger run perform].
      rewrite (cache_lookup_own _ _ _ He). cbn [looked_data]. unfold result_assign.
      destruct (String.eqb_spec symbol "__proto__"); [contradiction | exact Hrun].
    + intros k. rewrite Hr.
      destruct (decide (k ∈ rest)) as [Hin | Hnin].
      * rewrite decide_True by (right; exact Hin). reflexivity.
      * destruct (decide (k = symbol)) as [-> | Hne].
        -- rewrite decide_True by left. rewrite lookup_insert_eq, He. reflexivity.
        -- rewrite decide_False.
           ++ apply lookup_insert_ne. congruence.
           ++ intros Hin. apply elem_of_cons in Hin as [? | ?]; contradiction.
Qed.

Lemma run_api_quotes (req : Request) (res : Response) (w : World) :
  plain_dictionary (quoteCache w) ->
  run env (api_quotes req res) w =
  (Returned (res_send (JsonQuotes (lastUpdated (quoteCache w))
                         (data <$> qc_data (quoteCache w))) res), w).
Proof.
  intros [Hproto Hown]. unfold api_quotes. cbn [bind trigger run perform].
  rewrite run_bind. unfold for_in_keys. rewrite Hproto, app_nil_r.
  destruct (run_copy_quotes (own_keys (quoteCache w)) ∅ w) as (r & Hrun & Hr).
  { intros k Hk. apply list_elem_of_fmap in Hk as ([k' e] & -> & Hk).
    apply elem_of_map_to_list in Hk. cbn. split; [| eauto].
    intros ->. rewrite Hown in Hk. discriminate Hk. }
  rewrite Hrun. cbn [run].
  assert (Heq : serialized r = data <$> qc_data (quoteCache w));
    [| rewrite Heq; reflexivity].
  apply map_eq. intros k. unfold serialized.
  rewrite lookup_omap, Hr, lookup_fmap.
  destruct (decide _) as [Hin | Hnin].
  - destruct (qc_data (quoteCache w) !! k); reflexivity.
  - rewrite lookup_empty.
    destruct (qc_data (quoteCache w) !! k) as [e |] eqn:He; [| reflexivity].
    exfalso. apply Hnin. apply list_elem_of_fmap. exists (k, e).
    split; [reflexivity |]. apply elem_of_map_to_list. exact He.
Qed.

End Sequential.

(** ** The upstream client over the network *)

(** C3: [fetchStockData] never raises, and what it returns follows what
    [axios] makes of the reply.  After a transport error or a status outside
    200..299 it logs the symbol with the message of the error and returns
    [null].  After a success status it logs nothing and returns the body as
    [axios] hands it over: the decoded value when the body is JSON, and the
    body as a string when it is not, since [axios] does not treat a body
    that fails to parse as an error.  It never writes to the cache. *)
Theorem fetchStockData_settles (env : Env) (net : nat -> string -> HttpReply * N)
    (symbol : string) (w : World) :
  exists v w',
    run (over_network net env) (fetchStockData symbol) w = (Returned v, w') /\
    store_writes (over_network net env) (fetchStockData symbol) w = [] /\
    quoteCache w' = quoteCache w /\
    match (net (length (outbound w)) (url_of env symbol)).1 with
    | NetworkError msg =>
        v = JNull /\ console w' = console w ++ [ErrFetching symbol msg]
    | HttpResponse status body_text =>
        if (200 <=? status) && (status <? 300) then
          console w' = console w /\
          match body_text with
          | JsonText response_data => v = response_data
          | OtherText raw => v = JStr raw
          end
        else
          v = JNull /\
          console w' =
            console w ++
            [ErrFetching symbol ("Request failed with status code " +:+ pretty status)]
    end.
Proof.
  rewrite run_fetchStockData, store_writes_fetchStockData.
  change (url_of (over_network net env) symbol) with (url_of env symbol).
  cbn [upstream over_network fst]. unfold axios_settle.
  destruct (net (length (outbound w)) (url_of env symbol)).1
    as [msg | status body_text].
  - eexists _, _. repeat split; reflexivity.
  - destruct ((200 <=? status) && (status <? 300)).
    + eexists _, _. split; [reflexivity |]. split; [reflexivity |].
      split; [reflexivity |]. split; [reflexivity |].
      destruct body_text; reflexivity.
    + eexists _, _. repeat split; reflexivity.
Qed.

(** A body that fails to parse is neither logged nor turned into [null]:
    the reply to the request for AAPL on [unparsed_network] has status 200
    and a body that is not JSON, and [fetchStockData] returns that body as a
    string and leaves the console empty. *)
Lemma fetchStockData_parse_failure :
  (unparsed_network 0%nat (url_of sample_env "AAPL")).1 =
    HttpResponse 200 (OtherText "<html>Too Many Requests</html>") /\
  result (over_network unparsed_network sample_env) (fetchStockData "AAPL")
    (initial_world 1000) = Returned (JStr "<html>Too Many Requests</html>") /\
  console (exec (over_network unparsed_network sample_env) (fetchStockData "AAPL")
             (initial_world 1000)) = [] /\
  ~ (result (over_network unparsed_network sample_env) (fetchStockData "AAPL")
       (initial_world 1000) = Returned JNull /\
     exists msg,
       console (exec (over_network unparsed_network sample_env) (fetchStockData "AAPL")
                  (initial_world 1000)) = [ErrFetching "AAPL" msg]).
Proof.
  split; [reflexivity |]. split; [reflexivity |]. split; [reflexivity |].
  intros [Hnull _]. discriminate Hnull.
Qed.

(** ** What the programs can do *)

Section Effects.
Context (P : forall X, event X -> bool).

Lemma all_events_bind {A B : Type} (m : prog A) (f : A -> prog B) :
  all_events P m -> (forall a, all_events P (f a)) -> all_events P (bind m f).
Proof.
  intros Hm Hf. induction m as [a | e | X ev k IH]; cbn in *; auto.
  destruct Hm as [Hev Hk]. split; auto.
Qed.

Lemma all_events_try_catch {A : Type} (m : prog A) (h : JsError -> prog A) :
  all_events P m -> (forall e, all_events P (h e)) -> all_events P (try_catch m h).
Proof.
  intros Hm Hh. induction m as [a | e | X ev k IH]; cbn in *; auto.
  destruct Hm as [Hev Hk]. split; auto.
Qed.

Lemma all_events_for_of (xs : list string) (body : string -> prog unit) :
  (forall x, all_events P (body x)) -> all_events P (for_of xs body).
Proof.
  intros Hbody. induction xs as [| x rest IH]; cbn [for_of]; [exact I |].
  apply all_events_bind; auto.
Qed.

(** Besides its [try] statement, [GET /api/quote] only reads. *)
Lemma all_events_api_quote (req : Request) (res : Response) :
  (forall X (ev : event X), read_only_event X ev = true -> P X ev = true) ->
  (forall symbol, all_events P (fetch_quote symbol res)) ->
  all_events P (api_quote req res).
Proof.
  intros Hread Hfetch. unfold api_quote.
  destruct (query_falsy (query_symbol req)); [exact I |].
  destruct (to_property_key (query_symbol req)) as [symbol |]; [| exact I].
  cbn [bind trigger all_events]. split; [apply Hread; reflexivity |].
  intros [entry | v | t | |]; cbn [answer_looked bind trigger all_events].
  - split; [apply Hread; reflexivity |]. intros now.
    destruct (now - timestamp entry <? THREE_MINUTES); [exact I | apply Hfetch].
  - destruct (truthy v); [| apply Hfetch].
    cbn [bind trigger all_events]. split; [apply Hread; reflexivity |]. intros now.
    destruct (js_member "timestamp" v) as [t |]; [| apply Hfetch].
    cbn [bind trigger all_events]. split; [apply Hread; reflexivity |].
    intros [[|] |]; [exact I | apply Hfetch | exact I].
  - destruct (t =? 0); [apply Hfetch |].
    cbn [bind trigger all_events]. split; [apply Hread; reflexivity |].
    intros now. apply Hfetch.
  - split; [apply Hread; reflexivity |]. intros now. apply Hfetch.
  - apply Hfetch.
Qed.

End Effects.

Lemma all_events_impl (P Q : forall X, event X -> bool) {A : Type} (m : prog A) :
  (forall X (ev : event X), P X ev = true -> Q X ev = true) ->
  all_events P m -> all_events Q m.
Proof.
  intros HPQ. induction m as [a | e | X ev k IH]; cbn; auto.
  intros [Hev Hk]. split; auto.
Qed.

Lemma fetchStockData_reads (symbol : string) :
  all_events read_only_event (fetchStockData symbol).
Proof.
  unfold fetchStockData. apply all_events_try_catch.
  - cbn. split; [reflexivity |]. intros apiKey. split; [reflexivity |].
    intros [response_data | error]; exact I.
  - intros e. cbn. auto.
Qed.

Lemma read_only_handler (X : Type) (ev : event X) :
  read_only_event X ev = true -> handler_event X ev = true.
Proof. destruct ev; cbn; congruence. Qed.

Lemma read_only_sound (X : Type) (ev : event X) :
  read_only_event X ev = true -> sound_write X ev = true.
Proof. destruct ev; cbn; congruence. Qed.

Lemma handler_keeps_entry (X : Type) (ev : event X) :
  handler_event X ev = true -> keeps_entry X ev = true.
Proof. destruct ev; cbn; congruence. Qed.

Lemma handler_beside_limiter (X : Type) (ev : event X) :
  handler_event X ev = true -> beside_limiter X ev = true.
Proof. destruct ev; cbn; congruence. Qed.

Lemma fetchStockData_events (symbol : string) :
  all_events handler_event (fetchStockData symbol).
Proof.
  eapply all_events_impl; [apply read_only_handler | apply fetchStockData_reads].
Qed.

Lemma update_one_events (symbol : string) :
  all_events handler_event (update_one symbol).
Proof.
  unfold update_one. apply all_events_try_catch.
  - apply all_events_bind; [apply fetchStockData_events |].
    intros fetched. apply all_events_bind; [| cbn; auto].
    destruct (truthy fetched); [| exact I]. unfold log_updated.
    destruct (member_stringifies "c" fetched); cbn; auto.
  - intros e. cbn. auto.
Qed.

Lemma updateAllStocks_events : all_events handler_event updateAllStocks.
Proof.
  unfold updateAllStocks. apply all_events_bind; [cbn; auto |].
  intros _. apply all_events_bind.
  - apply all_events_for_of, update_one_events.
  - intros _. cbn. auto 10.
Qed.

Lemma fetch_quote_events (symbol : string) (res : Response) :
  all_events handler_event (fetch_quote symbol res).
Proof.
  unfold fetch_quote. apply all_events_try_catch; [| intros e; cbn; auto].
  apply all_events_bind; [apply fetchStockData_events |].
  intros fetched. destruct (truthy fetched); cbn; auto.
Qed.

Lemma api_quote_events (req : Request) (res : Response) :
  all_events handler_event (api_quote req res).
Proof.
  apply all_events_api_quote; [apply read_only_handler |].
  intros symbol. apply fetch_quote_events.
Qed.

Lemma copy_quotes_reads (keys : list string) (acc : gmap string (option json)) :
  all_events read_only_event (copy_quotes keys acc).
Proof.
  revert acc. induction keys as [| symbol rest IH]; intros acc; [exact I |].
  cbn. split; [reflexivity |]. intros looked.
  destruct (looked_data looked); [apply IH | exact I].
Qed.

Lemma api_quotes_reads (req : Request) (res : Response) :
  all_events read_only_event (api_quotes req res).
Proof.
  unfold api_quotes. cbn [bind trigger all_events].
  split; [reflexivity |]. intros last_updated.
  split; [reflexivity |]. intros keys.
  apply all_events_bind; [apply copy_quotes_reads |]. intros r. exact I.
Qed.

Lemma api_status_reads (req : Request) (res : Response) :
  all_events read_only_event (api_status req res).
Proof. cbn. auto 10. Qed.

Lemma routes_events (req : Request) (res : Response) :
  all_events handler_event (routes req res).
Proof.
  unfold routes.
  destruct (_ && _); [apply api_quote_events |].
  destruct (_ && _).
  { eapply all_events_impl; [apply read_only_handler | apply api_quotes_reads]. }
  destruct (_ && _); [| exact I].
  eapply all_events_impl; [apply read_only_handler | apply api_status_reads].
Qed.

Lemma cors_routes_events (req : Request) (res : Response) :
  all_events handler_event (cors req res (routes req)).
Proof. unfold cors. apply routes_events. Qed.

Lemma app_events (req : Request) (res : Response) :
  all_events keeps_entry (app req res).
Proof.
  assert (Hnext : forall res', all_events keeps_entry (cors req res' (routes req))).
  { intros res'.
    eapply all_events_impl; [apply handler_keeps_entry | apply cors_routes_events]. }
  unfold app, use_api. destruct (under_api (path req)); [| apply Hnext].
  unfold limiter, rateLimit. cbn [bind trigger all_events].
  split; [reflexivity |]. intros hits. split; [reflexivity |]. intros now.
  destruct (_ <? _); [exact I | apply Hnext].
Qed.

Lemma serve_no_delete (req : Request) (res : Response) : no_delete (serve req res).
Proof.
  unfold serve. apply all_events_bind; [apply app_events |]. intros _. exact I.
Qed.

Lemma updateAllStocks_no_delete : no_delete updateAllStocks.
Proof.
  eapply all_events_impl; [apply handler_keeps_entry | apply updateAllStocks_events].
Qed.

(** Only truthy payloads are stored. *)

Lemma fetchStockData_sound (symbol : string) :
  all_events sound_write (fetchStockData symbol).
Proof.
  eapply all_events_impl; [apply read_only_sound | apply fetchStockData_reads].
Qed.

Lemma update_one_sound (symbol : string) :
  all_events sound_write (update_one symbol).
Proof.
  unfold update_one. apply all_events_try_catch.
  - apply all_events_bind; [apply fetchStockData_sound |].
    intros fetched. apply all_events_bind; [| cbn; auto].
    destruct (truthy fetched) eqn:Hv; [| exact I].
    cbn [bind trigger all_events]. split; [reflexivity |]. intros now.
    split; [exact Hv |]. intros _. unfold log_updated.
    destruct (member_stringifies "c" fetched); cbn; auto.
  - intros e. cbn. auto.
Qed.

Lemma updateAllStocks_sound : all_events sound_write updateAllStocks.
Proof.
  unfold updateAllStocks. apply all_events_bind; [cbn; auto |].
  intros _. apply all_events_bind.
  - apply all_events_for_of, update_one_sound.
  - intros _. cbn. auto 10.
Qed.

Lemma fetch_quote_sound (symbol : string) (res : Response) :
  all_events sound_write (fetch_quote symbol res).
Proof.
  unfold fetch_quote. apply all_events_try_catch; [| intros e; cbn; auto].
  apply all_events_bind; [apply fetchStockData_sound |].
  intros fetched. destruct (truthy fetched) eqn:Hv; [| exact I].
  cbn. split; [reflexivity |]. intros now. split; [exact Hv | auto].
Qed.

Lemma api_quote_sound (req : Request) (res : Response) :
  all_events sound_write (api_quote req res).
Proof.
  apply all_events_api_quote; [apply read_only_sound |].
  intros symbol. apply fetch_quote_sound.
Qed.

Lemma serve_sound (req : Request) (res : Response) :
  all_events sound_write (serve req res).
Proof.
  assert (Hroutes : forall res', all_events sound_write (routes req res')).
  { intros res'. unfold routes.
    destruct (_ && _); [apply api_quote_sound |].
    destruct (_ && _).
    { eapply all_events_impl; [apply read_only_sound | apply api_quotes_reads]. }
    destruct (_ && _); [| exact I].
    eapply all_events_impl; [apply read_only_sound | apply api_status_reads]. }
  unfold serve. apply all_events_bind; [| intros _; exact I].
  unfold app, use_api, cors. destruct (under_api (path req)); [| apply Hroutes].
  unfold limiter, rateLimit. cbn [bind trigger all_events].
  split; [reflexivity |]. intros hits. split; [reflexivity |]. intros now.
  destruct (_ <? _); [exact I | apply Hroutes].
Qed.

(** What the handlers return. *)

Lemma all_returns_bind {A B : Type} (Q : B -> Prop) (m : prog A) (f : A -> prog B) :
  (forall a, all_returns Q (f a)) -> all_returns Q (bind m f).
Proof. intros Hf. induction m as [a | e | X ev k IH]; cbn; auto. Qed.

Lemma all_returns_try_catch {A : Type} (Q : A -> Prop) (m : prog A)
    (h : JsError -> prog A) :
  all_returns Q m -> (forall e, all_returns Q (h e)) -> all_returns Q (try_catch m h).
Proof. intros Hm Hh. induction m as [a | e | X ev k IH]; cbn in *; auto. Qed.

(** The handlers set no header with [res.header]. *)

Lemma fetch_quote_keeps_headers (symbol : string) (res : Response) :
  all_returns (fun resp => headers resp = headers res) (fetch_quote symbol res).
Proof.
  unfold fetch_quote. apply all_returns_try_catch; [| intros e; cbn; auto].
  apply all_returns_bind. intros fetched. destruct (truthy fetched); cbn; auto.
Qed.

Lemma api_quote_keeps_headers (req : Request) (res : Response) :
  all_returns (fun resp => headers resp = headers res) (api_quote req res).
Proof.
  pose proof (fun symbol => fetch_quote_keeps_headers symbol res) as Hfetch.
  unfold api_quote. destruct (query_falsy (query_symbol req)); [reflexivity |].
  destruct (to_property_key (query_symbol req)) as [symbol |]; [| exact I].
  cbn [bind trigger all_returns].
  intros [entry | v | t | |]; cbn [answer_looked bind trigger all_returns].
  - intros now. destruct (_ <? _); [reflexivity | apply Hfetch].
  - destruct (truthy v); [| apply Hfetch]. cbn [bind trigger all_returns]. intros now.
    destruct (js_member "timestamp" v) as [t |]; [| apply Hfetch].
    cbn [bind trigger all_returns]. intros [[|] |]; [reflexivity | apply Hfetch | exact I].
  - destruct (t =? 0); [apply Hfetch |]. cbn [bind trigger all_returns].
    intros now. apply Hfetch.
  - intros now. apply Hfetch.
  - apply Hfetch.
Qed.

Lemma api_quotes_keeps_headers (req : Request) (res : Response) :
  all_returns (fun resp => headers resp = headers res) (api_quotes req res).
Proof.
  unfold api_quotes. cbn [bind trigger all_returns]. intros last_updated keys.
  apply all_returns_bind. intros r. reflexivity.
Qed.

Lemma api_status_keeps_headers (req : Request) (res : Response) :
  all_returns (fun resp => headers resp = headers res) (api_status req res).
Proof. cbn. auto. Qed.

Lemma routes_keep_headers (req : Request) (res : Response) :
  all_returns (fun resp => headers resp = headers res) (routes req res).
Proof.
  unfold routes.
  destruct (_ && _); [apply api_quote_keeps_headers |].
  destruct (_ && _); [apply api_quotes_keeps_headers |].
  destruct (_ && _); [apply api_status_keeps_headers | reflexivity].
Qed.

(** ** Consequences for a run *)

Section Frames.
Context (env : Env).

Lemma perform_clock {X : Type} (ev : event X) (w : World) :
  clock w <= clock (perform env ev w).2.
Proof.
  destruct ev; cbn; try lia.
  destruct (upstream env _ _) as [r latency]. cbn. lia.
Qed.

Lemma exec_clock {A : Type} (m : prog A) (w : World) :
  clock w <= clock (exec env m w).
Proof.
  revert w. induction m as [a | e | X ev k IH]; intros w; try (cbn; lia).
  unfold exec. cbn [run]. pose proof (perform_clock ev w) as Hev.
  destruct (perform env ev w) as [x w1]. etrans; [exact Hev |]. apply IH.
Qed.

Lemma run_all_returns {A : Type} (Q : A -> Prop) (m : prog A) (w : World) (a : A) :
  all_returns Q m -> result env m w = Returned a -> Q a.
Proof.
  revert w. induction m as [a' | e | X ev k IH]; intros w Hm Hrun.
  - injection Hrun as <-. exact Hm.
  - discriminate Hrun.
  - unfold result in *. cbn [run] in Hrun.
    destruct (perform env ev w) as [x w1]. eapply IH; [apply Hm | exact Hrun].
Qed.

Lemma perform_sound {X : Type} (ev : event X) (w : World) :
  sound_write X ev = true -> cache_sound w -> cache_sound (perform env ev w).2.
Proof.
  unfold cache_sound. intros Hev [Hown Hproto].
  destruct ev; cbn in *; try (split; assumption).
  - destruct (upstream env _ _) as [r latency]. split; assumption.
  - assert (Hinsert : forall k e,
              <[symbol := entry]> (qc_data (quoteCache w)) !! k = Some e ->
              truthy (data e) = true).
    { intros k e Hk. apply lookup_insert_Some in Hk as [[_ <-] | [_ Hk]]; eauto. }
    unfold cache_assign. destruct (qc_data (quoteCache w) !! symbol).
    + split; [exact Hinsert | exact Hproto].
    + destruct (String.eqb symbol "__proto__"); cbn.
      * split; [exact Hown |]. intros e [= <-]. exact Hev.
      * split; [exact Hinsert | exact Hproto].
  - split; [| exact Hproto].
    intros k e Hk. apply lookup_delete_Some in Hk as [_ Hk]. eauto.
Qed.

Lemma perform_keeps {X : Type} (ev : event X) (w : World) :
  keeps_entry X ev = true ->
  cached_symbols w ⊆ cached_symbols (perform env ev w).2.
Proof.
  unfold cached_symbols. destruct ev; cbn; try discriminate; intros _;
    try reflexivity.
  - destruct (upstream env _ _) as [r latency]. reflexivity.
  - apply cache_assign_keeps.
Qed.

Lemma exec_keeps {A : Type} (m : prog A) (w : World) :
  no_delete m -> cached_symbols w ⊆ cached_symbols (exec env m w).
Proof.
  revert w. induction m as [a | e | X ev k IH]; intros w Hm; try reflexivity.
  destruct Hm as [Hev Hk]. unfold exec. cbn [run].
  pose proof (perform_keeps ev w Hev) as Hstep.
  destruct (perform env ev w) as [x w1]. etrans; [exact Hstep |]. apply IH, Hk.
Qed.

Lemma perform_beside_limiter {X : Type} (ev : event X) (w : World) :
  beside_limiter X ev = true ->
  limiterStore (perform env ev w).2 = limiterStore w.
Proof.
  destruct ev; cbn; try discriminate; intros _; try reflexivity.
  destruct (upstream env _ _) as [r latency]. reflexivity.
Qed.

Lemma exec_beside_limiter {A : Type} (m : prog A) (w : World) :
  all_events beside_limiter m ->
  limiterStore (exec env m w) = limiterStore w.
Proof.
  revert w. induction m as [a | e | X ev k IH]; intros w Hm; try reflexivity.
  destruct Hm as [Hev Hk]. unfold exec. cbn [run].
  pose proof (perform_beside_limiter ev w Hev) as Hstep.
  destruct (perform env ev w) as [x w1]. rewrite <- Hstep. apply IH, Hk.
Qed.

(** *** The interleaved semantics *)

(** The sequential run of a task is one of the schedules. *)
Lemma run_is_schedule (m : prog unit) (w : World) (pool : list (prog unit)) :
  rtc (sys_step env) (w, pool ++ [m]) (exec env m w, pool ++ [settled env m w]).
Proof.
  revert w. induction m as [a | e | X ev k IH]; intros w; try apply rtc_refl.
  eapply rtc_l.
  - apply (step_task env w (pool ++ [Vis ev k]) (length pool) X ev k).
    rewrite lookup_app_r, Nat.sub_diag by lia. reflexivity.
  - replace (<[length pool := k (perform env ev w).1]> (pool ++ [Vis ev k]))
      with (pool ++ [k (perform env ev w).1]).
    + specialize (IH (perform env ev w).1 (perform env ev w).2).
      unfold exec, settled, result in *. cbn [run].
      destruct (perform env ev w) as [x w1]. exact IH.
    + rewrite insert_app_r_alt, Nat.sub_diag by lia. reflexivity.
Qed.

Lemma step_keeps (s s' : System) :
  sys_step env s s' ->
  Forall no_delete s.2 ->
  cached_symbols s.1 ⊆ cached_symbols s'.1 /\ Forall no_delete s'.2.
Proof.
  intros Hstep Hpool. destruct Hstep as [w pool | w pool req res
    | w pool i X ev k Htask | w pool d]; cbn [fst snd] in *.
  - split; [reflexivity |]. apply Forall_app. split; [exact Hpool |].
    constructor; [apply updateAllStocks_no_delete | constructor].
  - split; [reflexivity |]. apply Forall_app. split; [exact Hpool |].
    constructor; [apply serve_no_delete | constructor].
  - pose proof (proj1 (Forall_lookup _ _) Hpool i _ Htask) as [Hev Hk].
    split; [apply perform_keeps, Hev |].
    apply Forall_insert; [exact Hpool | apply Hk].
  - split; [reflexivity | exact Hpool].
Qed.

Lemma steps_keep (s s' : System) :
  rtc (sys_step env) s s' ->
  Forall no_delete s.2 ->
  cached_symbols s.1 ⊆ cached_symbols s'.1 /\ Forall no_delete s'.2.
Proof.
  induction 1 as [s | s s1 s' Hstep _ IH]; intros Hpool.
  - split; [reflexivity | exact Hpool].
  - destruct (step_keeps s s1 Hstep Hpool) as [Hsub Hpool1].
    destruct (IH Hpool1) as [Hsub' Hpool']. split; [| exact Hpool'].
    etrans; eassumption.
Qed.

Lemma step_sound (s s' : System) :
  sys_step env s s' ->
  cache_sound s.1 /\ Forall (all_events sound_write) s.2 ->
  cache_sound s'.1 /\ Forall (all_events sound_write) s'.2.
Proof.
  intros Hstep [Hw Hpool]. destruct Hstep as [w pool | w pool req res
    | w pool i X ev k Htask | w pool d]; cbn [fst snd] in *.
  - split; [exact Hw |]. apply Forall_app. split; [exact Hpool |].
    constructor; [apply updateAllStocks_sound | constructor].
  - split; [exact Hw |]. apply Forall_app. split; [exact Hpool |].
    constructor; [apply serve_sound | constructor].
  - pose proof (proj1 (Forall_lookup _ _) Hpool i _ Htask) as [Hev Hk].
    split; [apply perform_sound; assumption |].
    apply Forall_insert; [exact Hpool | apply Hk].
  - split; [exact Hw | exact Hpool].
Qed.

(** X12: only truthy payloads are stored.  In every state the process can
    reach, with passes and requests interleaved in any way, every object
    stored in the dictionary holds a payload that passes the test
    [if (data)]: an own property of the dictionary, and also its prototype
    once a request for the key [__proto__] has replaced it. *)
Lemma reachable_cache_sound (s : System) :
  reachable env s -> cache_sound s.1.
Proof.
  intros [start Hreach].
  assert (Hinit : cache_sound (boot start).1 /\
                  Forall (all_events sound_write) (boot start).2).
  { split; [| constructor]. split.
    - intros k e Hk. cbn in Hk. rewrite lookup_empty in Hk. discriminate.
    - intros e He. discriminate He. }
  revert Hinit. generalize dependent (boot start).
  intros s0 Hreach. induction Hreach as [s | s0 s1 s Hstep _ IH]; intros Hinit.
  - apply Hinit.
  - apply IH. eapply step_sound; eassumption.
Qed.

(** C8: the key set of the cache never shrinks.  In every state the process
    can reach, with refresh passes and requests interleaved in any way, and
    from there along any further execution, each symbol present in the cache
    is still present. *)
Theorem cache_keys_never_shrink (s s' : System) :
  reachable env s ->
  rtc (sys_step env) s s' ->
  cached_symbols s.1 ⊆ cached_symbols s'.1.
Proof.
  intros [start Hreach] Hsteps.
  destruct (steps_keep _ _ Hreach) as [_ Hpool]; [constructor |].
  apply (steps_keep _ _ Hsteps Hpool).
Qed.

End Frames.

(** ** CORS *)

Lemma includes_allowed (o : string) :
  includes allowedOrigins (Some o) = true <->
  o = "https://hw-invest.web.app" \/ o = "https://hw-invest.firebaseapp.com".
Proof.
  cbn. rewrite !orb_true_iff, !String.eqb_eq. intuition discriminate.
Qed.

Lemma set_cors_headers_fixed (req : Request) (res : Response) :
  statusCode (set_cors_headers req res) = statusCode res /\
  body (set_cors_headers req res) = body res /\
  headers (set_cors_headers req res) !! "Access-Control-Allow-Headers" =
    Some allow_headers.
Proof.
  unfold set_cors_headers. cbn [res_header headers statusCode body].
  rewrite lookup_insert_eq.
  destruct (origin req) as [o |]; [destruct (includes allowedOrigins (Some o)) |];
    repeat split; reflexivity.
Qed.

Lemma set_cors_headers_origin (req : Request) (res : Response) :
  headers (set_cors_headers req res) !! "Access-Control-Allow-Origin" =
  if includes allowedOrigins (origin req) then origin req
  else headers res !! "Access-Control-Allow-Origin".
Proof.
  unfold set_cors_headers. cbn [res_header headers].
  rewrite lookup_insert_ne by discriminate.
  destruct (origin req) as [o |]; [| reflexivity].
  destruct (includes allowedOrigins (Some o)); [| reflexivity].
  apply lookup_insert_eq.
Qed.

(** C6: the CORS middleware.  For a response on which no earlier middleware
    has set [Access-Control-Allow-Origin], the middleware hands on a response
    in which that header is present exactly when the request's [Origin] is
    one of the two allow-listed origins, and then carries that very origin;
    [Access-Control-Allow-Headers] is set to the fixed list in every case,
    and status and body are not touched. *)
Theorem cors_reflects_allowed_origin
    (req : Request) (res : Response) (next : Response -> prog Response) :
  headers res !! "Access-Control-Allow-Origin" = None ->
  exists res',
    cors req res next = next res' /\
    statusCode res' = statusCode res /\
    body res' = body res /\
    headers res' !! "Access-Control-Allow-Headers" = Some allow_headers /\
    forall v,
      headers res' !! "Access-Control-Allow-Origin" = Some v <->
      origin req = Some v /\
      (v = "https://hw-invest.web.app" \/ v = "https://hw-invest.firebaseapp.com").
Proof.
  intros Hunset. exists (set_cors_headers req res). split; [reflexivity |].
  destruct (set_cors_headers_fixed req res) as (Hstatus & Hbody & Hallow).
  split; [exact Hstatus |]. split; [exact Hbody |]. split; [exact Hallow |].
  intros v. rewrite set_cors_headers_origin, Hunset.
  destruct (includes allowedOrigins (origin req)) eqn:Hallowed.
  - destruct (origin req) as [o |]; [| discriminate Hallowed].
    apply includes_allowed in Hallowed. split.
    + intros [= <-]. split; [reflexivity | exact Hallowed].
    + intros [Ho _]. exact Ho.
  - split; [discriminate |]. intros [Ho Hv].
    rewrite Ho in Hallowed. apply includes_allowed in Hv. congruence.
Qed.

(** ** Rate limiting *)

Section Limiter.
Context (env : Env).

Lemma run_app_under_api (req : Request) (res : Response) (w : World) :
  under_api (path req) = true ->
  run env (app req res) w =
  if max limiter_options <? totalHits (hits_for req w)
  then (Returned (too_many req res w), counted req w)
  else run env
         (cors req (rate_limit_headers limiter_options (hits_for req w) (clock w) res)
            (routes req))
         (counted req w).
Proof.
  intros Hpath. unfold app, use_api. rewrite Hpath.
  unfold limiter, rateLimit. cbn [bind trigger run perform].
  fold (hits_for req w). fold (counted req w).
  change (clock (counted req w)) with (clock w).
  destruct (max limiter_options <? totalHits (hits_for req w)); reflexivity.
Qed.

Lemma run_app_elsewhere (req : Request) (res : Response) (w : World) :
  under_api (path req) = false ->
  run env (app req res) w = run env (cors req res (routes req)) w.
Proof. intros Hpath. unfold app, use_api. rewrite Hpath. reflexivity. Qed.

Lemma store_writes_app_rejected (req : Request) (res : Response) (w : World) :
  under_api (path req) = true ->
  max limiter_options < totalHits (hits_for req w) ->
  store_writes env (app req res) w = [].
Proof.
  intros Hpath Hover. unfold app, use_api. rewrite Hpath.
  unfold limiter, rateLimit. cbn [bind trigger run perform store_writes write_of app].
  fold (hits_for req w).
  destruct (Z.ltb_spec (max limiter_options) (totalHits (hits_for req w))); [| lia].
  reflexivity.
Qed.

Lemma app_limiterStore (req : Request) (res : Response) (w : World) :
  under_api (path req) = true ->
  limiterStore (exec env (app req res) w) =
  <[ip req := hits_for req w]> (limiterStore w).
Proof.
  intros Hpath. unfold exec. rewrite run_app_under_api by exact Hpath.
  destruct (_ <? _); [reflexivity |].
  fold (exec env (cors req (rate_limit_headers limiter_options (hits_for req w)
                              (clock w) res) (routes req)) (counted req w)).
  rewrite exec_beside_limiter; [reflexivity |].
  eapply all_events_impl; [apply handler_beside_limiter | apply cors_routes_events].
Qed.

Lemma hits_window_open (req : Request) (w : World) (n R : Z) :
  limiterStore w !! ip req = Some {| totalHits := n; resetTime := R |} ->
  clock w < R ->
  hits_for req w = {| totalHits := n + 1; resetTime := R |}.
Proof.
  intros Hc Hopen. unfold hits_for, store_increment. rewrite Hc. cbn.
  destruct (Z.ltb_spec (clock w) R); [reflexivity | lia].
Qed.

Lemma hits_window_closed (req : Request) (w : World) :
  window_closed (ip req) w ->
  hits_for req w =
  {| totalHits := 1; resetTime := clock w + windowMs limiter_options |}.
Proof.
  intros Hclosed. unfold hits_for, store_increment.
  destruct (limiterStore w !! ip req) as [c |] eqn:Hc; [| reflexivity].
  specialize (Hclosed c Hc).
  destruct (Z.ltb_spec (clock w) (resetTime c)); [lia | reflexivity].
Qed.

(** *** The whole chain

    The limiter is registered before the CORS middleware: a request it lets
    through gets the CORS headers and reaches its route, a request it rejects
    gets neither. *)

Lemma rate_limit_headers_other (hits : ClientHits) (now : Z) (res : Response)
    (name : string) :
  name <> "RateLimit-Reset" -> name <> "RateLimit-Remaining" ->
  name <> "RateLimit-Limit" ->
  headers (rate_limit_headers limiter_options hits now res) !! name =
  headers res !! name.
Proof.
  intros H1 H2 H3. unfold rate_limit_headers. cbn.
  rewrite !lookup_insert_ne by congruence. reflexivity.
Qed.

Lemma app_passed_on (req : Request) (res : Response) (w : World) :
  under_api (path req) = false \/
  totalHits (hits_for req w) <= max limiter_options ->
  exists res1 w1,
    run env (app req res) w = run env (cors req res1 (routes req)) w1 /\
    statusCode res1 = statusCode res /\
    quoteCache w1 = quoteCache w /\
    clock w1 = clock w /\
    forall name, String.prefix "Access-Control-" name = true ->
                 headers res1 !! name = headers res !! name.
Proof.
  intros Hpass. destruct (under_api (path req)) eqn:Hpath.
  - destruct Hpass as [? | Hpass]; [discriminate |].
    rewrite run_app_under_api by exact Hpath.
    destruct (Z.ltb_spec (max limiter_options) (totalHits (hits_for req w))); [lia |].
    eexists _, _. split; [reflexivity |].
    split; [unfold rate_limit_headers; reflexivity |].
    split; [reflexivity |]. split; [reflexivity |].
    intros name Hname. apply rate_limit_headers_other; intros ->; discriminate.
  - rewrite run_app_elsewhere by exact Hpath. eexists _, _. eauto 10.
Qed.

Lemma app_cors_headers (req : Request) (res : Response) (w : World) (resp : Response) :
  under_api (path req) = false \/
  totalHits (hits_for req w) <= max limiter_options ->
  result env (app req res) w = Returned resp ->
  headers resp !! "Access-Control-Allow-Headers" = Some allow_headers /\
  headers resp !! "Access-Control-Allow-Origin" =
    if includes allowedOrigins (origin req) then origin req
    else headers res !! "Access-Control-Allow-Origin".
Proof.
  intros Hpass Hrun.
  destruct (app_passed_on req res w Hpass) as (res1 & w1 & Happ & _ & _ & _ & Hsame).
  unfold result in Hrun. rewrite Happ in Hrun. unfold cors in Hrun.
  pose proof (run_all_returns env _ _ w1 resp
                (routes_keep_headers req (set_cors_headers req res1)) Hrun) as Hkeep.
  cbn beta in Hkeep. rewrite Hkeep, set_cors_headers_origin, Hsame by reflexivity.
  split; [apply set_cors_headers_fixed | reflexivity].
Qed.

Lemma app_rejected_without_cors (req : Request) (res : Response) (w : World) :
  under_api (path req) = true ->
  max limiter_options < totalHits (hits_for req w) ->
  exists resp,
    run env (app req res) w = (Returned resp, counted req w) /\
    statusCode resp = 429 /\
    forall name, String.prefix "Access-Control-" name = true ->
                 headers resp !! name = headers res !! name.
Proof.
  intros Hpath Hover. rewrite run_app_under_api by exact Hpath.
  destruct (Z.ltb_spec (max limiter_options) (totalHits (hits_for req w))); [| lia].
  eexists. split; [reflexivity |]. split; [reflexivity |].
  intros name Hname. unfold too_many. cbn [headers res_send res_status].
  apply rate_limit_headers_other; intros ->; discriminate.
Qed.

Lemma app_quote_missing_symbol (req : Request) (res : Response) (w : World) :
  method req = "GET" -> path req = "/api/quote" -> query_symbol req = QUndefined ->
  totalHits (hits_for req w) <= max limiter_options ->
  exists resp w',
    run env (app req res) w = (Returned resp, w') /\
    statusCode resp = 400 /\
    body resp = JsonError "Symbol parameter is required".
Proof.
  intros Hmethod Hpath Hq Hpass.
  destruct (app_passed_on req res w (or_intror Hpass)) as (res1 & w1 & -> & _).
  unfold cors, routes. rewrite Hmethod, Hpath.
  change (get_or_head "GET" && path_matches "/api/quote" "/api/quote") with true.
  cbv iota.
  rewrite run_api_quote_missing by (rewrite Hq; reflexivity).
  eexists _, _. split; [reflexivity |]. split; reflexivity.
Qed.

Lemma serve_all_cons (req : Request) (reqs : list Request) (w : World) :
  serve_all env (req :: reqs) w =
  serve_all env reqs (exec env (app req fresh_response) w).
Proof. reflexivity. Qed.

Lemma serve_all_app (reqs1 reqs2 : list Request) (w : World) :
  serve_all env (reqs1 ++ reqs2) w = serve_all env reqs2 (serve_all env reqs1 w).
Proof. apply foldl_app. Qed.

Lemma serve_all_clock (reqs : list Request) (w : World) :
  clock w <= clock (serve_all env reqs w).
Proof.
  revert w. induction reqs as [| req rest IH]; intros w; [reflexivity |].
  rewrite serve_all_cons. etrans; [apply (exec_clock env (app req fresh_response)) |].
  apply IH.
Qed.

Lemma serve_all_hits (reqs : list Request) (w : World) (key : string) (n R : Z) :
  limiterStore w !! key = Some {| totalHits := n; resetTime := R |} ->
  (forall r, r ∈ reqs -> ip r = key /\ under_api (path r) = true) ->
  clock (serve_all env reqs w) < R ->
  limiterStore (serve_all env reqs w) !! key =
  Some {| totalHits := n + Z.of_nat (length reqs); resetTime := R |}.
Proof.
  revert w n. induction reqs as [| req rest IH]; intros w n Hc Hreqs Hopen.
  - cbn. rewrite Hc. do 2 f_equal. lia.
  - destruct (Hreqs req) as [Hip Hpath]; [left |]. subst key.
    rewrite serve_all_cons in *.
    pose proof (serve_all_clock rest (exec env (app req fresh_response) w)) as Hmono.
    pose proof (exec_clock env (app req fresh_response) w) as Hstep.
    rewrite (IH _ (n + 1)).
    + do 2 f_equal. cbn [length]. lia.
    + rewrite app_limiterStore by exact Hpath.
      rewrite lookup_insert_eq. f_equal. apply hits_window_open; [exact Hc | lia].
    + intros r Hr. apply Hreqs. right. exact Hr.
    + exact Hopen.
Qed.

(** The counter read for the request that follows [pre] in a window begun
    with the first request of [pre]. *)
Lemma hits_after (pre : list Request) (req : Request) (w : World) :
  window_closed (ip req) w ->
  (forall r, r ∈ pre -> ip r = ip req /\ under_api (path r) = true) ->
  clock (serve_all env pre w) < clock w + windowMs limiter_options ->
  hits_for req (serve_all env pre w) =
  {| totalHits := Z.of_nat (length pre) + 1;
     resetTime := clock w + windowMs limiter_options |}.
Proof.
  intros Hclosed Hpre Hopen. destruct pre as [| first rest].
  - cbn [serve_all foldl length]. apply hits_window_closed, Hclosed.
  - destruct (Hpre first) as [Hip Hpath]; [left |].
    rewrite serve_all_cons in *.
    apply hits_window_open; [| exact Hopen].
    rewrite (serve_all_hits rest _ (ip req) 1 (clock w + windowMs limiter_options)).
    + do 2 f_equal. cbn [length]. lia.
    + rewrite app_limiterStore by exact Hpath. rewrite Hip, lookup_insert_eq.
      f_equal. rewrite <- Hip in Hclosed.
      rewrite (hits_window_closed first w Hclosed). reflexivity.
    + intros r Hr. apply Hpre. right. exact Hr.
    + exact Hopen.
Qed.

(** C9: a burst of 101 requests.  A client IP with no open window sends 100
    requests to paths under [/api/], served one after the other, and then one
    more, all within 15 minutes of the first.  Each of the first 100 is
    handed to the CORS middleware and the routes, the limiter having changed
    nothing but its own counter and the rate-limit headers.  The 101st is
    answered by the limiter itself with the fixed message and the
    [RateLimit-*] headers; it changes neither the cache nor the console,
    issues no upstream request and performs no store write. *)
Theorem limiter_rejects_101st
    (w : World) (reqs : list Request) (last : Request) (res : Response) :
  length reqs = 100%nat ->
  (forall r, r ∈ reqs ++ [last] -> ip r = ip last /\ under_api (path r) = true) ->
  window_closed (ip last) w ->
  clock (serve_all env reqs w) < clock w + windowMs limiter_options ->
  (forall i r,
     reqs !! i = Some r ->
     let wi := serve_all env (take i reqs) w in
     totalHits (hits_for r wi) = Z.of_nat i + 1 /\
     run env (app r fresh_response) wi =
     run env
       (cors r (rate_limit_headers limiter_options (hits_for r wi) (clock wi)
                  fresh_response)
          (routes r))
       (counted r wi)) /\
  let w100 := serve_all env reqs w in
  exists resp w',
    run env (app last res) w100 = (Returned resp, w') /\
    statusCode resp = 429 /\
    body resp = TextBody "Too many requests, please try again later" /\
    headers resp !! "RateLimit-Limit" = Some "100" /\
    headers resp !! "RateLimit-Remaining" = Some "0" /\
    is_Some (headers resp !! "RateLimit-Reset") /\
    quoteCache w' = quoteCache w100 /\
    outbound w' = outbound w100 /\
    console w' = console w100 /\
    store_writes env (app last res) w100 = [].
Proof.
  intros Hlen Hreqs Hclosed Hwindow.
  assert (Hall : forall r, r ∈ reqs -> ip r = ip last /\ under_api (path r) = true).
  { intros r Hr. apply Hreqs, elem_of_app. left. exact Hr. }
  destruct (Hreqs last) as [_ Hlast]; [apply elem_of_app; right; left |].
  split.
  - intros i r Hi wi. subst wi.
    destruct (Hall r) as [Hip Hpath]; [eapply list_elem_of_lookup_2, Hi |].
    assert (Hhits : hits_for r (serve_all env (take i reqs) w) =
              {| totalHits := Z.of_nat i + 1;
                 resetTime := clock w + windowMs limiter_options |}).
    { rewrite hits_after.
      - rewrite length_take_le; [reflexivity |].
        apply lookup_lt_Some in Hi. lia.
      - rewrite Hip. exact Hclosed.
      - intros r' Hr'. rewrite Hip. apply Hall.
        eapply subseteq_take, Hr'.
      - rewrite <- (take_drop i reqs), serve_all_app in Hwindow.
        pose proof (serve_all_clock (drop i reqs) (serve_all env (take i reqs) w)).
        lia. }
    split; [rewrite Hhits; reflexivity |].
    rewrite run_app_under_api by exact Hpath. rewrite Hhits.
    apply lookup_lt_Some in Hi. cbn [totalHits limiter_options max].
    destruct (Z.ltb_spec 100 (Z.of_nat i + 1)); [lia | reflexivity].
  - intros w100. subst w100.
    assert (Hhits : hits_for last (serve_all env reqs w) =
              {| totalHits := 101;
                 resetTime := clock w + windowMs limiter_options |}).
    { rewrite hits_after by assumption. rewrite Hlen. reflexivity. }
    rewrite run_app_under_api by exact Hlast.
    rewrite store_writes_app_rejected by (rewrite ?Hhits; cbn; (exact Hlast || lia)).
    unfold too_many, rate_limit_headers. rewrite Hhits.
    cbn [totalHits resetTime limiter_options max standardHeaders limit_message].
    eexists _, _. split; [reflexivity |].
    cbn [statusCode body headers res_send res_status res_header].
    split; [reflexivity |]. split; [reflexivity |].
    split; [rewrite !lookup_insert_ne by discriminate; apply lookup_insert_eq |].
    split; [rewrite lookup_insert_ne by discriminate; apply lookup_insert_eq |].
    split; [rewrite lookup_insert_eq; eauto |].
    repeat split; reflexivity.
Qed.

End Limiter.

(** * Further properties of the routes *)

Section Routes.
Context (env : Env).

Lemma fetchStockData_console (symbol : string) (w : World) :
  console (exec env (fetchStockData symbol) w) = console w \/
  exists msg,
    console (exec env (fetchStockData symbol) w) = console w ++ [ErrFetching symbol msg].
Proof.
  unfold exec. rewrite run_fetchStockData.
  destruct (upstream env _ _).1 as [response_data | error]; cbn; eauto.
Qed.

Lemma fetchStockData_resolved (symbol : string) (w : World) (response_data : json) :
  (upstream env (length (outbound w)) (url_of env symbol)).1 = Resolved response_data ->
  fetched env symbol w = response_data /\
  console (exec env (fetchStockData symbol) w) = console w.
Proof.
  intros Hup. unfold fetched, result, exec. rewrite run_fetchStockData, Hup.
  split; reflexivity.
Qed.

(** The state [GET /api/quote] leaves when it had to fetch [symbol] and the
    value it got is truthy. *)
Lemma run_api_quote_fetch_truthy (req : Request) (res : Response) (w : World)
    (symbol : string) :
  asks_for req symbol ->
  is_fresh env symbol w = Some false ->
  truthy (fetched env symbol w) = true ->
  run env (api_quote req res) w =
  (Returned (res_send (JsonValue (fetched env symbol w)) res),
   stored symbol (fetched env symbol w) (exec env (fetchStockData symbol) w)).
Proof.
  intros Hasks Hstale Hv.
  rewrite (run_api_quote_fetch env req res w symbol Hasks Hstale).
  unfold quote_fetched. rewrite Hv. reflexivity.
Qed.

Lemma stored_quoteCache (symbol : string) (w : World) :
  quoteCache (stored symbol (fetched env symbol w) (exec env (fetchStockData symbol) w)) =
  cache_assign symbol
    {| data := fetched env symbol w;
       timestamp := clock (exec env (fetchStockData symbol) w) |}
    (quoteCache w).
Proof.
  destruct (fetchStockData_frame env symbol w) as (Hc & _).
  unfold stored. cbn [set_cache quoteCache]. rewrite Hc. reflexivity.
Qed.

(** What the [try] statement of the handler answers and logs. *)
Lemma quote_fetched_answers (symbol : string) (res : Response) (w : World) :
  exists resp,
    (quote_fetched env symbol res w).1 = Returned resp /\
    (statusCode resp = statusCode res \/ statusCode resp = 404) /\
    body resp <> JsonError "Failed to fetch data" /\
    forall err, ErrProxy err ∈ console (quote_fetched env symbol res w).2 ->
                ErrProxy err ∈ console w.
Proof.
  assert (Hlog : forall err,
            ErrProxy err ∈ console (exec env (fetchStockData symbol) w) ->
            ErrProxy err ∈ console w).
  { intros err Hin.
    destruct (fetchStockData_console symbol w) as [Hsame | [msg Hmore]].
    - rewrite Hsame in Hin. exact Hin.
    - rewrite Hmore in Hin. apply elem_of_app in Hin as [Hin | Hin]; [exact Hin |].
      apply list_elem_of_singleton in Hin. discriminate Hin. }
  unfold quote_fetched. destruct (truthy (fetched env symbol w));
    (eexists; split; [reflexivity |]); cbn; repeat split; auto; discriminate.
Qed.

(** X1: the 500 branch of [GET /api/quote] is dead.  In every state, for
    every environment and every request, the handler writes no 'Proxy error'
    line to the console; when it returns a response, the status is the one
    the response came in with (200 in the chain), 400 or 404, and the body is
    never [{ error: 'Failed to fetch data' }].  When instead it ends by
    throwing, the error is the [TypeError] of a conversion that happens
    before the [try] statement, and it has changed nothing. *)
Theorem api_quote_never_500 (req : Request) (res : Response) (w : World) :
  (forall err, ErrProxy err ∈ console (exec env (api_quote req res) w) ->
               ErrProxy err ∈ console w) /\
  match result env (api_quote req res) w with
  | Returned resp =>
      (statusCode resp = statusCode res \/ statusCode resp = 400 \/
       statusCode resp = 404) /\
      body resp <> JsonError "Failed to fetch data"
  | Raised error => error = cannot_convert /\ exec env (api_quote req res) w = w
  end.
Proof.
  assert (Hfetch : forall symbol,
    (forall err, ErrProxy err ∈ console (run env (fetch_quote symbol res) w).2 ->
                 ErrProxy err ∈ console w) /\
    match (run env (fetch_quote symbol res) w).1 with
    | Returned resp =>
        (statusCode resp = statusCode res \/ statusCode resp = 400 \/
         statusCode resp = 404) /\
        body resp <> JsonError "Failed to fetch data"
    | Raised error => error = cannot_convert /\ (run env (fetch_quote symbol res) w).2 = w
    end).
  { intros symbol. rewrite run_fetch_quote.
    destruct (quote_fetched_answers symbol res w) as (resp & -> & Hstatus & Hbody & Hlog).
    split; [exact Hlog |]. split; [tauto | exact Hbody]. }
  unfold exec, result, api_quote.
  destruct (query_falsy (query_symbol req)).
  { cbn. repeat split; auto; discriminate. }
  destruct (to_property_key (query_symbol req)) as [symbol |].
  2: { cbn. repeat split; auto. }
  cbn [bind trigger run perform].
  destruct (cache_lookup symbol (quoteCache w)) as [entry | v | t | |];
    cbn [answer_looked bind trigger run perform].
  - destruct (_ <? _); [| apply Hfetch]. cbn. repeat split; auto; discriminate.
  - destruct (truthy v); [| apply Hfetch]. cbn [bind trigger run perform].
    destruct (js_member "timestamp" v) as [t |]; [| apply Hfetch].
    cbn [bind trigger run perform].
    destruct (age_below env (clock w) t THREE_MINUTES) as [[|] |]; [| apply Hfetch |].
    + cbn. repeat split; auto. destruct (js_member "data" v); discriminate.
    + cbn. repeat split; auto.
  - destruct (t =? 0); [apply Hfetch |]. cbn [bind trigger run perform]. apply Hfetch.
  - apply Hfetch.
  - apply Hfetch.
Qed.

(** X2: the on-demand write.  Let the request carry a symbol that passes the
    guard and converts to a key other than [__proto__], let the cache have no
    fresh entry under that key and let the fetch return a truthy value, of
    whatever shape.  The answer carries that value unchanged with the status
    the response came in with; the entry under the key becomes that value
    stamped with the clock at which the fetch came back; every other entry,
    the prototype of the dictionary and [lastUpdated] are left alone; and
    exactly one request went upstream. *)
Theorem api_quote_stores_fetched (req : Request) (res : Response) (w : World)
    (symbol : string) :
  asks_for req symbol ->
  symbol <> "__proto__" ->
  is_fresh env symbol w = Some false ->
  truthy (fetched env symbol w) = true ->
  exists w',
    run env (api_quote req res) w =
      (Returned (res_send (JsonValue (fetched env symbol w)) res), w') /\
    qc_data (quoteCache w') !! symbol =
      Some {| data := fetched env symbol w; timestamp := clock w' |} /\
    (forall other, other <> symbol ->
       qc_data (quoteCache w') !! other = qc_data (quoteCache w) !! other) /\
    qc_proto (quoteCache w') = qc_proto (quoteCache w) /\
    lastUpdated (quoteCache w') = lastUpdated (quoteCache w) /\
    outbound w' = outbound w ++ [url_of env symbol] /\
    clock w <= clock w'.
Proof.
  intros Hasks Hkey Hstale Hv.
  rewrite (run_api_quote_fetch_truthy req res w symbol Hasks Hstale Hv).
  destruct (fetchStockData_frame env symbol w) as (_ & Ho & Hclock & _).
  eexists. split; [reflexivity |].
  rewrite stored_quoteCache, cache_assign_own by exact Hkey. world_fields.
  split; [apply lookup_insert_eq |].
  split; [intros other Hother; apply lookup_insert_ne; congruence |].
  split; [reflexivity |]. split; [reflexivity |]. split; [exact Ho | exact Hclock].
Qed.

(** X16: a request for the key [__proto__].  When the fetch for a symbol
    that converts to [__proto__] returns a truthy value, the answer carries
    that value, but the dictionary gains no property: its own properties are
    exactly those it had, so [stocksTracked] does not change, and the stored
    object has become its prototype. *)
Theorem api_quote_replaces_prototype (req : Request) (res : Response) (w : World) :
  asks_for req "__proto__" ->
  qc_data (quoteCache w) !! "__proto__" = None ->
  is_fresh env "__proto__" w = Some false ->
  truthy (fetched env "__proto__" w) = true ->
  exists w',
    run env (api_quote req res) w =
      (Returned (res_send (JsonValue (fetched env "__proto__" w)) res), w') /\
    qc_data (quoteCache w') = qc_data (quoteCache w) /\
    cached_symbols w' = cached_symbols w /\
    qc_proto (quoteCache w') =
      Some {| data := fetched env "__proto__" w; timestamp := clock w' |} /\
    lastUpdated (quoteCache w') = lastUpdated (quoteCache w).
Proof.
  intros Hasks Hown Hstale Hv.
  rewrite (run_api_quote_fetch_truthy req res w "__proto__" Hasks Hstale Hv).
  eexists. split; [reflexivity |]. unfold cached_symbols.
  rewrite stored_quoteCache. unfold cache_assign. rewrite Hown. cbn.
  repeat split; reflexivity.
Qed.

(** X3: write, then read.  After an on-demand fetch has stored a value for
    [symbol], a request for the same symbol that arrives less than three
    minutes after the fetch came back is answered with that value from the
    cache: the state is not changed, so no request goes upstream. *)
Theorem api_quote_then_cached (req req' : Request) (res res' : Response) (w : World)
    (symbol : string) (t : Z) :
  query_symbol req = QStr symbol ->
  query_symbol req' = QStr symbol ->
  symbol <> "" ->
  is_fresh env symbol w = Some false ->
  truthy (fetched env symbol w) = true ->
  t < clock (exec env (api_quote req res) w) + THREE_MINUTES ->
  run env (api_quote req' res') (set_clock t (exec env (api_quote req res) w)) =
  (Returned (res_send (JsonValue (fetched env symbol w)) res'),
   set_clock t (exec env (api_quote req res) w)).
Proof.
  intros Hq Hq' Hne Hstale Hv. unfold exec at 1 2 3.
  rewrite (run_api_quote_fetch_truthy req res w symbol
             (asks_for_string req symbol Hq Hne) Hstale Hv).
  cbn [snd]. intros Ht.
  apply (run_api_quote_fresh env req' res' _ symbol
           {| data := fetched env symbol w;
              timestamp := clock (exec env (fetchStockData symbol) w) |}
           (asks_for_string req' symbol Hq' Hne)).
  - cbn [set_clock quoteCache]. rewrite stored_quoteCache. apply cache_lookup_assign.
  - revert Ht. world_fields. cbn [timestamp]. lia.
Qed.

(** X4: a falsy body is dropped in silence.  When the upstream request
    resolves, so nothing is logged, but the body is falsy ([0], [false], the
    empty string or [null]), [GET /api/quote] answers 404 and the iteration
    of the refresher stores nothing: in both cases cache and console are as
    before. *)
Theorem falsy_body_is_dropped (req : Request) (res : Response) (w : World)
    (symbol : string) (response_data : json) :
  query_symbol req = QStr symbol ->
  symbol <> "" ->
  is_fresh env symbol w = Some false ->
  (upstream env (length (outbound w)) (url_of env symbol)).1 = Resolved response_data ->
  truthy response_data = false ->
  (exists w',
     run env (api_quote req res) w =
       (Returned (res_send (JsonError "Symbol data not available") (res_status 404 res)),
        w') /\
     quoteCache w' = quoteCache w /\ console w' = console w) /\
  quoteCache (exec env (update_one symbol) w) = quoteCache w /\
  console (exec env (update_one symbol) w) = console w.
Proof.
  intros Hq Hne Hstale Hup Hv.
  destruct (fetchStockData_resolved symbol w response_data Hup) as [Hfetched Hconsole].
  destruct (fetchStockData_frame env symbol w) as (Hc & _).
  split; [| split].
  - rewrite (run_api_quote_fetch env req res w symbol
               (asks_for_string req symbol Hq Hne) Hstale).
    unfold quote_fetched. rewrite Hfetched, Hv. eauto.
  - apply update_one_falsy. rewrite Hfetched. exact Hv.
  - unfold exec at 1. rewrite run_update_one. unfold iterated. rewrite Hfetched, Hv.
    world_fields. exact Hconsole.
Qed.

Lemma run_api_status (req : Request) (res : Response) (w : World) :
  run env (api_status req res) w =
  (Returned (res_send (JsonStatus "online" (lastUpdated (quoteCache w))
                         (size (qc_data (quoteCache w)))
                         (Qmake (clock w - boot_time env) 1000)) res), w).
Proof.
  unfold api_status. cbn [bind trigger run perform]. unfold own_keys.
  rewrite length_fmap, length_map_to_list. reflexivity.
Qed.

(** X5: [GET /api/status].  The handler changes nothing and reports
    [status: 'online'], the current [lastUpdated], and as [stocksTracked]
    the number of own properties of the dictionary.  As long as the
    dictionary has the prototype it was created with, that is also the number
    of quotes [GET /api/quotes] returns in the same state. *)
Theorem api_status_reports (req req' : Request) (res res' : Response) (w : World) :
  (exists uptime,
     run env (api_status req res) w =
       (Returned (res_send (JsonStatus "online" (lastUpdated (quoteCache w))
                              (size (qc_data (quoteCache w))) uptime) res), w)) /\
  (plain_dictionary (quoteCache w) ->
   exists quotes,
     run env (api_quotes req' res') w =
       (Returned (res_send (JsonQuotes (lastUpdated (quoteCache w)) quotes) res'), w) /\
     size quotes = size (qc_data (quoteCache w))).
Proof.
  split.
  - eexists. apply run_api_status.
  - intros Hplain. exists (data <$> qc_data (quoteCache w)).
    split; [apply run_api_quotes, Hplain | apply map_size_fmap].
Qed.

(** X17: the snapshot of a dictionary that has the prototype it was created
    with.  [GET /api/quotes] returns without raising and without changing
    the state; the [data] mapping of its answer has exactly the keys of the
    cache, stale entries included, each mapped to the stored payload without
    its timestamp, and the answer carries the current [lastUpdated]. *)
Theorem api_quotes_snapshot (req : Request) (res : Response) (w : World) :
  plain_dictionary (quoteCache w) ->
  exists quotes,
    run env (api_quotes req res) w =
      (Returned (res_send (JsonQuotes (lastUpdated (quoteCache w)) quotes) res), w) /\
    dom quotes = cached_symbols w /\
    forall symbol, quotes !! symbol = data <$> qc_data (quoteCache w) !! symbol.
Proof.
  intros Hplain. exists (data <$> qc_data (quoteCache w)).
  split; [apply run_api_quotes, Hplain |].
  split; [apply dom_fmap_L |]. intros symbol. apply lookup_fmap.
Qed.

(** X13: what a route stores, the snapshot shows.  Let the dictionary have
    the prototype it was created with.  After [GET /api/quote] has stored a
    fetched value under a key other than [__proto__], [GET /api/quotes] in
    the state it left maps that key to the value and every other key to what
    it was mapped to before; the number of quotes has grown by one if the key
    was not cached before and is unchanged otherwise. *)
Theorem api_quote_then_quotes (req req' : Request) (res res' : Response) (w : World)
    (symbol : string) :
  asks_for req symbol ->
  symbol <> "__proto__" ->
  plain_dictionary (quoteCache w) ->
  is_fresh env symbol w = Some false ->
  truthy (fetched env symbol w) = true ->
  exists quotes,
    run env (api_quotes req' res') (exec env (api_quote req res) w) =
      (Returned (res_send (JsonQuotes (lastUpdated (quoteCache w)) quotes) res'),
       exec env (api_quote req res) w) /\
    quotes !! symbol = Some (fetched env symbol w) /\
    (forall other, other <> symbol ->
       quotes !! other = data <$> qc_data (quoteCache w) !! other) /\
    size quotes =
      match qc_data (quoteCache w) !! symbol with
      | Some _ => size (qc_data (quoteCache w))
      | None => S (size (qc_data (quoteCache w)))
      end.
Proof.
  intros Hasks Hkey [Hproto Hown] Hstale Hv. unfold exec.
  rewrite (run_api_quote_fetch_truthy req res w symbol Hasks Hstale Hv). cbn [snd].
  rewrite run_api_quotes.
  2: { rewrite stored_quoteCache, cache_assign_own by exact Hkey.
       split; [exact Hproto |]. cbn. rewrite lookup_insert_ne by congruence. exact Hown. }
  rewrite stored_quoteCache, cache_assign_own by exact Hkey. world_fields.
  eexists. split; [reflexivity |]. split; [| split].
  - rewrite lookup_fmap, lookup_insert_eq. reflexivity.
  - intros other Hother. rewrite !lookup_fmap, lookup_insert_ne by congruence.
    reflexivity.
  - rewrite map_size_fmap.
    destruct (qc_data (quoteCache w) !! symbol) as [old |] eqn:Hold.
    + eapply map_size_insert_Some. eauto.
    + apply map_size_insert_None, Hold.
Qed.

(** X14: every answer of the three handlers carries the CORS headers.  The
    CORS middleware runs before the handlers and no handler sets an
    [Access-Control-*] header: so whichever of the three handlers answers a
    request that reached the middleware, and also when it answers 400 or
    404, the response has [Access-Control-Allow-Headers] set to the fixed
    list, and [Access-Control-Allow-Origin] set to an allow-listed origin of
    the request and otherwise as it came in. *)
Theorem handlers_answers_carry_cors (req : Request) (res : Response) (w : World)
    (handler : Request -> Response -> prog Response) (resp : Response) :
  handler = api_quote \/ handler = api_quotes \/ handler = api_status ->
  result env (cors req res (handler req)) w = Returned resp ->
  headers resp !! "Access-Control-Allow-Headers" = Some allow_headers /\
  headers resp !! "Access-Control-Allow-Origin" =
    (if includes allowedOrigins (origin req) then origin req
     else headers res !! "Access-Control-Allow-Origin").
Proof.
  intros Hhandler Hrun. unfold cors in Hrun.
  assert (Hkeep : headers resp = headers (set_cors_headers req res)).
  { destruct Hhandler as [-> | [-> | ->]].
    - exact (run_all_returns env _ _ w resp
               (api_quote_keeps_headers req (set_cors_headers req res)) Hrun).
    - exact (run_all_returns env _ _ w resp
               (api_quotes_keeps_headers req (set_cors_headers req res)) Hrun).
    - exact (run_all_returns env _ _ w resp
               (api_status_keeps_headers req (set_cors_headers req res)) Hrun). }
  rewrite Hkeep.
  split; [apply set_cors_headers_fixed | apply set_cors_headers_origin].
Qed.

End Routes.

(** C5: the snapshot after a request for the key [__proto__].  The upstream
    answers with a body that has a member [data].  [GET /api/quote] for the
    symbol [__proto__] stores that body by the assignment of line 118, which
    replaces the prototype of the dictionary: the dictionary still has no
    property of its own, and [GET /api/status] reports 0 tracked stocks.
    The [for]-[in] loop of [GET /api/quotes] then visits the inherited
    members: the [data] mapping of its answer has the key [data], which is
    the key of no entry, so its key set is not the key set of the cache. *)
Theorem api_quotes_inherited_key :
  let w1 := exec enveloped_env
              (api_quote (quote_request (QStr "__proto__")) fresh_response)
              (initial_world 1000) in
  cached_symbols w1 = ∅ /\
  result enveloped_env (api_status status_request fresh_response) w1 =
    Returned (res_send (JsonStatus "online" 0 0 (Qmake 1020 1000)) fresh_response) /\
  exists quotes,
    run enveloped_env (api_quotes status_request fresh_response) w1 =
      (Returned (res_send (JsonQuotes 0 quotes) fresh_response), w1) /\
    quotes !! "data" = Some sample_quote /\
    dom quotes <> cached_symbols w1.
Proof.
  intros w1.
  assert (Hw1 : quoteCache w1 =
            {| qc_data := ∅;
               qc_proto := Some {| data := enveloped_quote; timestamp := 1020 |};
               lastUpdated := 0 |}) by reflexivity.
  split; [reflexivity |]. split; [reflexivity |].
  exists {[ "data" := sample_quote ]}. split; [| split].
  - vm_compute. reflexivity.
  - reflexivity.
  - unfold cached_symbols. rewrite Hw1. cbn [qc_data].
    rewrite dom_singleton_L, dom_empty_L. intros Heq.
    apply (not_elem_of_empty (C := gset string) "data"). rewrite <- Heq.
    apply elem_of_singleton. reflexivity.
Qed.

(** * Further properties of the refresher *)

Section Refresher.
Context (env : Env).


Lemma update_one_duration (symbol : string) (w : World) :
  (truthy (fetched env symbol w) = true ->
   member_stringifies "c" (fetched env symbol w) = true) ->
  clock w + 1500 <= clock (exec env (update_one symbol) w).
Proof.
  intros Hlog. pose proof (update_one_waits env symbol w Hlog).
  destruct (fetchStockData_frame env symbol w) as (_ & _ & Hc & _). lia.
Qed.

(** The hypothesis on a loop, taken apart. *)
Lemma loggable_cons (symbol : string) (rest : list string) (w : World) :
  (forall f, f ∈ pass_fetches env (symbol :: rest) w -> loggable f) ->
  (truthy (fetched env symbol w) = true ->
   member_stringifies "c" (fetched env symbol w) = true) /\
  (forall f, f ∈ pass_fetches env rest (exec env (update_one symbol) w) -> loggable f).
Proof.
  intros Hlog. split.
  - apply (Hlog (symbol, fetched env symbol w,
                 clock (exec env (fetchStockData symbol) w))). left.
  - intros f Hf. apply Hlog. right. exact Hf.
Qed.


Lemma for_of_duration (symbols : list string) (w : World) :
  (forall f, f ∈ pass_fetches env symbols w -> loggable f) ->
  clock w + 1500 * Z.of_nat (length symbols)
  <= clock (exec env (for_of symbols update_one) w).
Proof.
  revert w. induction symbols as [| symbol rest IH]; intros w Hlog.
  - cbn. lia.
  - apply loggable_cons in Hlog as [Hhead Hrest].
    rewrite exec_for_of_cons. specialize (IH (exec env (update_one symbol) w) Hrest).
    pose proof (update_one_duration symbol w Hhead). cbn [length]. lia.
Qed.



Lemma pass_fetches_lag (symbols : list string) (w : World) (i : nat)
    (f : string * json * Z) :
  (forall f, f ∈ pass_fetches env symbols w -> loggable f) ->
  pass_fetches env symbols w !! i = Some f ->
  f.2 + 1500 * (Z.of_nat (length symbols) - Z.of_nat i)
  <= clock (exec env (for_of symbols update_one) w).
Proof.
  revert w i. induction symbols as [| symbol rest IH]; intros w i Hlog Hf;
    [discriminate Hf |].
  apply loggable_cons in Hlog as [Hhead Hrest].
  rewrite exec_for_of_cons. cbn [pass_fetches] in Hf. destruct i as [| i].
  - injection Hf as <-. cbn [snd].
    pose proof (update_one_waits env symbol w Hhead).
    pose proof (for_of_duration rest (exec env (update_one symbol) w) Hrest).
    cbn [length]. lia.
  - specialize (IH (exec env (update_one symbol) w) i Hrest Hf). cbn [length]. lia.
Qed.

Lemma for_of_cached_symbols (symbols : list string) (w : World) :
  "__proto__" ∉ symbols ->
  cached_symbols (exec env (for_of symbols update_one) w) =
  cached_symbols w ∪
  list_to_set (filter (fun f => succeeded f = true) (pass_fetches env symbols w)).*1.*1.
Proof.
  revert w. induction symbols as [| symbol rest IH]; intros w Hkeys.
  - symmetry. apply union_empty_r_L.
  - apply not_elem_of_cons in Hkeys as [Hkey Hkeys].
    rewrite exec_for_of_cons, IH by exact Hkeys. cbn [pass_fetches]. rewrite filter_cons.
    unfold cached_symbols at 1. rewrite update_one_cache by congruence.
    destruct (truthy (fetched env symbol w)) eqn:Hv.
    + rewrite decide_True by exact Hv. rewrite dom_insert_L.
      cbn [fmap list_fmap fst]. rewrite list_to_set_cons.
      unfold cached_symbols.
      rewrite (union_comm_L {[symbol]} (dom (qc_data (quoteCache w)))).
      rewrite <- union_assoc_L. reflexivity.
    + rewrite decide_False; [reflexivity |].
      unfold succeeded. cbn [fst snd]. rewrite Hv. discriminate.
Qed.

Lemma MONITORED_STOCKS_named (symbol : string) :
  symbol ∈ MONITORED_STOCKS -> symbol <> "".
Proof.
  intros Hin ->. revert Hin.
  apply (bool_decide_unpack ("" ∉ MONITORED_STOCKS)). vm_compute. exact I.
Qed.


(** X7: [lastUpdated] runs ahead of the entries.  When the price of every
    succeeded fetch of a pass can be written to the log, the entry the pass
    stores for the symbol at position [i] of the list (counting from 0) is,
    when the pass sets [lastUpdated], already at least [1500 * (35 - i)] ms
    old: at least 1.5 s for the last symbol and 52.5 s for the first. *)
Theorem updateAllStocks_lastUpdated_lags (w : World) (i : nat) (f : string * json * Z) :
  (forall f, f ∈ pass_fetches env MONITORED_STOCKS (pass_started w) -> loggable f) ->
  pass_fetches env MONITORED_STOCKS (pass_started w) !! i = Some f ->
  succeeded f = true ->
  exists entry,
    qc_data (quoteCache (exec env updateAllStocks w)) !! f.1.1 = Some entry /\
    data entry = f.1.2 /\
    timestamp entry + 1500 * (35 - Z.of_nat i)
    <= lastUpdated (quoteCache (exec env updateAllStocks w)).
Proof.
  intros Hlog Hi Hs. rewrite exec_updateAllStocks. world_fields.
  exists (entry_of f).2. split; [| split; [reflexivity |]].
  - rewrite (for_of_fetched_symbol env _ _ f MONITORED_STOCKS_NoDup MONITORED_STOCKS_own),
      Hs; [reflexivity |].
    eapply list_elem_of_lookup_2, Hi.
  - apply (pass_fetches_lag MONITORED_STOCKS (pass_started w) i f Hlog Hi).
Qed.

(** X15: a price that cannot be logged.  When a fetch of the refresher
    returns a truthy value whose member [c] does not convert to a string,
    the value is stored all the same; the template of the log line then
    throws, the [catch] clause of the loop logs the failure, and the
    iteration ends without waiting: no timer is set and no time passes
    after the fetch. *)
Theorem update_one_skips_delay (symbol : string) (w : World) :
  truthy (fetched env symbol w) = true ->
  member_stringifies "c" (fetched env symbol w) = false ->
  let w2 := exec env (fetchStockData symbol) w in
  let w' := exec env (update_one symbol) w in
  result env (update_one symbol) w = Returned tt /\
  quoteCache w' =
    cache_assign symbol {| data := fetched env symbol w; timestamp := clock w2 |}
      (quoteCache w) /\
  console w' = console w2 ++ [ErrFailedUpdate symbol cannot_convert] /\
  timers w' = timers w /\
  clock w' = clock w2.
Proof.
  intros Hv Hlog w2 w'. subst w2 w'.
  rewrite update_one_quoteCache, Hv.
  assert (Hrun : run env (update_one symbol) w =
            (Returned tt,
             set_console (console (exec env (fetchStockData symbol) w) ++
                          [ErrFailedUpdate symbol cannot_convert])
               (stored symbol (fetched env symbol w)
                  (exec env (fetchStockData symbol) w)))).
  { rewrite run_update_one. unfold iterated. rewrite Hv, Hlog. reflexivity. }
  assert (Hexec : exec env (update_one symbol) w =
            set_console (console (exec env (fetchStockData symbol) w) ++
                         [ErrFailedUpdate symbol cannot_convert])
              (stored symbol (fetched env symbol w)
                 (exec env (fetchStockData symbol) w))).
  { unfold exec at 1. rewrite Hrun. reflexivity. }
  unfold result. rewrite Hrun, !Hexec.
  destruct (fetchStockData_frame env symbol w) as (_ & _ & _ & Ht & _).
  world_fields. repeat split; try reflexivity. exact Ht.
Qed.

(** X8: what a pass adds to the cache.  After a pass the cached symbols are
    those cached before together with the symbols whose fetch succeeded; so
    a pass adds monitored symbols only, and at most 35 of them. *)
Theorem updateAllStocks_cached_symbols (w : World) :
  let fetches := pass_fetches env MONITORED_STOCKS (pass_started w) in
  let w' := exec env updateAllStocks w in
  cached_symbols w' =
    cached_symbols w ∪
    list_to_set (filter (fun f => succeeded f = true) fetches).*1.*1 /\
  cached_symbols w' ⊆ cached_symbols w ∪ list_to_set MONITORED_STOCKS /\
  (size (cached_symbols w') <= size (cached_symbols w) + 35)%nat.
Proof.
  intros fetches w'. subst fetches w'. rewrite exec_updateAllStocks.
  assert (Heq : cached_symbols
                  (pass_finished (exec env (for_of MONITORED_STOCKS update_one)
                                    (pass_started w))) =
                cached_symbols w ∪
                list_to_set (filter (fun f => succeeded f = true)
                               (pass_fetches env MONITORED_STOCKS (pass_started w))).*1.*1).
  { exact (for_of_cached_symbols MONITORED_STOCKS (pass_started w) MONITORED_STOCKS_own). }
  assert (Hsub : cached_symbols
                   (pass_finished (exec env (for_of MONITORED_STOCKS update_one)
                                     (pass_started w))) ⊆
                 cached_symbols w ∪ list_to_set MONITORED_STOCKS).
  { rewrite Heq. apply union_mono_l. intros symbol Hin.
    apply elem_of_list_to_set in Hin. apply elem_of_list_to_set.
    apply list_elem_of_fmap in Hin as (p & -> & Hin).
    apply list_elem_of_fmap in Hin as (f & -> & Hin).
    apply list_elem_of_filter in Hin as [_ Hin].
    eapply pass_fetches_elem, Hin. }
  split; [exact Heq |]. split; [exact Hsub |].
  etrans; [apply (subseteq_size _ _ Hsub) |].
  rewrite size_union_alt. apply Nat.add_le_mono_l.
  etrans; [apply subseteq_size, subseteq_difference_l; reflexivity |].
  rewrite size_list_to_set by apply MONITORED_STOCKS_NoDup. reflexivity.
Qed.

(** X9: the pass feeds the on-demand route.  A pass has stored the value of
    a succeeded fetch; a request for that symbol arriving after the pass and
    less than three minutes after the fetch came back is answered with that
    value from the cache, and the state is not changed, so no request goes
    upstream. *)
Theorem pass_then_quote_cached (w : World) (f : string * json * Z)
    (req : Request) (res : Response) (t : Z) :
  f ∈ pass_fetches env MONITORED_STOCKS (pass_started w) ->
  succeeded f = true ->
  query_symbol req = QStr f.1.1 ->
  t < f.2 + THREE_MINUTES ->
  run env (api_quote req res) (set_clock t (exec env updateAllStocks w)) =
  (Returned (res_send (JsonValue f.1.2) res), set_clock t (exec env updateAllStocks w)).
Proof.
  intros Hf Hs Hq Ht. rewrite exec_updateAllStocks.
  apply (run_api_quote_fresh env req res _ f.1.1 (entry_of f).2).
  - apply asks_for_string; [exact Hq |].
    eapply MONITORED_STOCKS_named, pass_fetches_elem, Hf.
  - apply cache_lookup_own. world_fields.
    rewrite (for_of_fetched_symbol env _ _ f MONITORED_STOCKS_NoDup
               MONITORED_STOCKS_own Hf), Hs.
    reflexivity.
  - world_fields. cbn. lia.
Qed.

End Refresher.

(** * Further properties of the interleaved semantics *)

Section Tasks.
Context (env : Env).

Lemma known_le_refl (K : Known) : known_le K K.
Proof. split; [lia | auto]. Qed.

Lemma known_le_trans (K1 K2 K3 : Known) :
  known_le K1 K2 -> known_le K2 K3 -> known_le K1 K3.
Proof. intros [Hc Hr] [Hc' Hr']. split; [lia | auto]. Qed.

Lemma learn_grows (K : Known) {X : Type} (ev : event X) (x : X) :
  answer_ok env K ev x -> known_le K (learn K ev x).
Proof.
  destruct ev; cbn; intros Hx; try apply known_le_refl.
  split; [exact Hx | auto].
Qed.

Lemma well_behaved_mono (T : JsError -> Prop) {A : Type} (m : prog A) (K K' : Known) :
  known_le K K' -> well_behaved env T m K -> well_behaved env T m K'.
Proof.
  intros HK. destruct m as [a | e | X ev k]; cbn; auto.
  intros Hm K'' HK'. apply Hm. eapply known_le_trans; eassumption.
Qed.

Lemma well_behaved_weaken (T T' : JsError -> Prop) {A : Type} (m : prog A) (K : Known) :
  (forall e, T e -> T' e) -> well_behaved env T m K -> well_behaved env T' m K.
Proof.
  intros HT. revert K. induction m as [a | e | X ev k IH]; intros K; cbn; auto.
  intros Hm K' HK. destruct (Hm K' HK) as [Hev Hk]. split; auto.
Qed.

Lemma well_behaved_bind (T : JsError -> Prop) {A B : Type}
    (m : prog A) (f : A -> prog B) (K : Known) :
  well_behaved env T m K ->
  (forall a K', known_le K K' -> well_behaved env T (f a) K') ->
  well_behaved env T (bind m f) K.
Proof.
  revert K. induction m as [a | e | X ev k IH]; intros K Hm Hf; cbn in *.
  - apply Hf, known_le_refl.
  - exact Hm.
  - intros K' HK. destruct (Hm K' HK) as [Hev Hk]. split; [exact Hev |].
    intros x Hx. apply IH; [apply Hk, Hx |].
    intros a K'' HK''. apply Hf.
    eapply known_le_trans; [exact HK |].
    eapply known_le_trans; [apply learn_grows, Hx | exact HK''].
Qed.

(** What the body of a [try] throws is caught. *)
Lemma well_behaved_try_catch (T : JsError -> Prop) {A : Type}
    (m : prog A) (h : JsError -> prog A) (K : Known) :
  well_behaved env any_error m K ->
  (forall e K', known_le K K' -> well_behaved env T (h e) K') ->
  well_behaved env T (try_catch m h) K.
Proof.
  revert K. induction m as [a | e | X ev k IH]; intros K Hm Hh; cbn in *.
  - exact I.
  - apply Hh, known_le_refl.
  - intros K' HK. destruct (Hm K' HK) as [Hev Hk]. split; [exact Hev |].
    intros x Hx. apply IH; [apply Hk, Hx |].
    intros e K'' HK''. apply Hh.
    eapply known_le_trans; [exact HK |].
    eapply known_le_trans; [apply learn_grows, Hx | exact HK''].
Qed.

Lemma well_behaved_for_of (T : JsError -> Prop) (xs : list string)
    (body : string -> prog unit) (K : Known) :
  (forall x K', well_behaved env T (body x) K') ->
  well_behaved env T (for_of xs body) K.
Proof.
  intros Hbody. revert K. induction xs as [| x rest IH]; intros K; [exact I |].
  cbn [for_of]. apply well_behaved_bind; [apply Hbody |]. intros _ K' _. apply IH.
Qed.

Lemma read_only_effect_ok (K : Known) {X : Type} (ev : event X) :
  read_only_event X ev = true -> effect_ok K ev.
Proof. destruct ev; cbn; intros Hev; try exact I; discriminate Hev. Qed.

(** A program that only reads asks nothing of the state. *)
Lemma read_only_well_behaved (T : JsError -> Prop) {A : Type} (m : prog A) (K : Known) :
  all_events read_only_event m -> all_throws T m -> well_behaved env T m K.
Proof.
  revert K. induction m as [a | e | X ev k IH]; intros K Hm Ht; cbn; auto.
  destruct Hm as [Hev Hk]. intros K' _. split.
  - apply read_only_effect_ok, Hev.
  - intros x _. apply IH; [apply Hk | apply Ht].
Qed.

(** One effect that only reads, then the rest. *)
Lemma well_behaved_then (T : JsError -> Prop) {A X : Type} (ev : event X)
    (k : X -> prog A) (K : Known) :
  read_only_event X ev = true ->
  (forall x K', well_behaved env T (k x) K') ->
  well_behaved env T (Vis ev k) K.
Proof.
  intros Hev Hk. cbn. intros K' HK. split; [| auto].
  apply read_only_effect_ok, Hev.
Qed.

Lemma fetchStockData_well_behaved (T : JsError -> Prop) (symbol : string) (K : Known) :
  well_behaved env T (fetchStockData symbol) K.
Proof.
  apply read_only_well_behaved; [apply fetchStockData_reads |].
  cbn. intros apiKey [response_data | error]; cbn; auto.
Qed.

(** [quoteCache.data[symbol] = { data, timestamp: Date.now() }], under the
    test [if (data)]. *)
Lemma store_now_well_behaved (T : JsError -> Prop) {A : Type} (symbol : string)
    (v : json) (rest : prog A) (K : Known) :
  truthy v = true ->
  (forall K', well_behaved env T rest K') ->
  well_behaved env T
    (let! now := trigger DateNow in
     trigger (CacheSet symbol {| data := v; timestamp := now |});;
     rest) K.
Proof.
  intros Hv Hrest. cbn. intros K1 _. split; [exact I |]. intros now _.
  cbn. intros K2 [Hnow _]. split; [split; [exact Hnow | exact Hv] |].
  intros _ _. apply Hrest.
Qed.

Lemma update_one_well_behaved (symbol : string) (K : Known) :
  well_behaved env no_error (update_one symbol) K.
Proof.
  unfold update_one. apply well_behaved_try_catch.
  - apply well_behaved_bind; [apply fetchStockData_well_behaved |].
    intros fetched K1 _. apply well_behaved_bind.
    + destruct (truthy fetched) eqn:Hv; [| exact I].
      apply (store_now_well_behaved any_error symbol fetched
               (log_updated symbol fetched) K1 Hv).
      intros K2. unfold log_updated.
      destruct (member_stringifies "c" fetched); [| exact I].
      apply read_only_well_behaved; cbn; auto.
    + intros _ K2 _. apply read_only_well_behaved; cbn; auto.
  - intros e K1 _. apply read_only_well_behaved; cbn; auto.
Qed.

Lemma updateAllStocks_well_behaved (K : Known) :
  well_behaved env no_error updateAllStocks K.
Proof.
  unfold updateAllStocks. apply well_behaved_bind.
  { apply read_only_well_behaved; cbn; auto. }
  intros _ K1 _. apply well_behaved_bind.
  { apply well_behaved_for_of. intros x K2. apply update_one_well_behaved. }
  intros _ K2 _. cbn. intros K3 _. split; [exact I |]. intros now _.
  cbn. intros K4 [Hnow _]. split; [exact Hnow |]. intros _ _.
  cbn. intros K5 _. split; [exact I |]. intros finished _.
  cbn. intros K6 _. split; [exact I |]. intros _ _. exact I.
Qed.

Lemma fetch_quote_well_behaved (symbol : string) (res : Response) (K : Known) :
  well_behaved env no_error (fetch_quote symbol res) K.
Proof.
  unfold fetch_quote. apply well_behaved_try_catch.
  - apply well_behaved_bind; [apply fetchStockData_well_behaved |].
    intros fetched K1 _. destruct (truthy fetched) eqn:Hv; [| exact I].
    apply (store_now_well_behaved any_error symbol fetched
             (Ret (res_send (JsonValue fetched) res)) K1 Hv).
    intros K2. exact I.
  - intros e K1 _. apply read_only_well_behaved; cbn; auto.
Qed.

(** [GET /api/quote] throws only where a conversion fails. *)
Lemma api_quote_well_behaved (req : Request) (res : Response) (K : Known) :
  well_behaved env conversion_error (api_quote req res) K.
Proof.
  assert (Hfetch : forall symbol K',
            well_behaved env conversion_error (fetch_quote symbol res) K').
  { intros symbol K'. eapply well_behaved_weaken; [| apply fetch_quote_well_behaved].
    intros e []. }
  unfold api_quote. destruct (query_falsy (query_symbol req)); [exact I |].
  destruct (to_property_key (query_symbol req)) as [symbol |]; [| reflexivity].
  cbn [bind trigger]. apply well_behaved_then; [reflexivity |].
  intros [entry | v | t | |] K1; cbn [answer_looked bind trigger].
  - apply well_behaved_then; [reflexivity |]. intros now K2.
    destruct (_ <? _); [exact I | apply Hfetch].
  - destruct (truthy v); [| apply Hfetch].
    cbn [bind trigger]. apply well_behaved_then; [reflexivity |]. intros now K2.
    destruct (js_member "timestamp" v) as [t |]; [| apply Hfetch].
    cbn [bind trigger]. apply well_behaved_then; [reflexivity |].
    intros [[|] |] K3; [exact I | apply Hfetch | reflexivity].
  - destruct (t =? 0); [apply Hfetch |].
    cbn [bind trigger]. apply well_behaved_then; [reflexivity |].
    intros now K2. apply Hfetch.
  - apply well_behaved_then; [reflexivity |]. intros now K2. apply Hfetch.
  - apply Hfetch.
Qed.

(** The loop of [GET /api/quotes] reads [.data] only under keys the
    [for]-[in] statement has found, and those stay readable. *)
Lemma copy_quotes_well_behaved (keys : list string) (acc : gmap string (option json))
    (K : Known) :
  (forall key, key ∈ keys -> k_readable K key) ->
  well_behaved env no_error (copy_quotes keys acc) K.
Proof.
  revert acc K. induction keys as [| symbol rest IH]; intros acc K Hkeys; [exact I |].
  cbn [copy_quotes bind trigger well_behaved]. intros K1 [_ Hsub].
  split; [exact I |]. intros looked Hlooked. cbn [learn] in *.
  destruct Hlooked as [value ->]; [apply Hsub, Hkeys; left |].
  apply IH. intros key Hkey. apply Hsub, Hkeys. right. exact Hkey.
Qed.

Lemma api_quotes_well_behaved (req : Request) (res : Response) (K : Known) :
  well_behaved env no_error (api_quotes req res) K.
Proof.
  unfold api_quotes. cbn [bind trigger well_behaved].
  intros K1 _. split; [exact I |]. intros last_updated _.
  intros K2 _. split; [exact I |]. intros keys Hkeys. cbn [learn] in *.
  apply well_behaved_bind; [apply copy_quotes_well_behaved, Hkeys |].
  intros r K3 _. exact I.
Qed.

Lemma api_status_well_behaved (req : Request) (res : Response) (K : Known) :
  well_behaved env no_error (api_status req res) K.
Proof.
  apply read_only_well_behaved; [apply api_status_reads |]. cbn. auto.
Qed.

Lemma routes_well_behaved (req : Request) (res : Response) (K : Known) :
  well_behaved env conversion_error (routes req res) K.
Proof.
  unfold routes.
  destruct (_ && _); [apply api_quote_well_behaved |].
  destruct (_ && _).
  { eapply well_behaved_weaken; [| apply api_quotes_well_behaved]. intros e []. }
  destruct (_ && _); [| exact I].
  eapply well_behaved_weaken; [| apply api_status_well_behaved]. intros e [].
Qed.

Lemma serve_well_behaved (req : Request) (res : Response) (K : Known) :
  well_behaved env conversion_error (serve req res) K.
Proof.
  unfold serve. apply well_behaved_bind; [| intros _ K1 _; exact I].
  unfold app, use_api, cors.
  destruct (under_api (path req)); [| apply routes_well_behaved].
  unfold limiter, rateLimit. cbn [bind trigger well_behaved].
  intros K1 _. split; [exact I |]. intros hits _.
  intros K2 _. split; [exact I |]. intros now _.
  destruct (_ <? _); [exact I | apply routes_well_behaved].
Qed.

(** What one effect does to the state. *)

Lemma cache_lookup_other (key : string) (entry : CachedQuote) (c : QuoteCache)
    (k : string) :
  k <> key ->
  cache_lookup k (with_entries (<[key := entry]> (qc_data c)) c) = cache_lookup k c.
Proof.
  intros Hk. unfold cache_lookup. cbn. rewrite lookup_insert_ne by congruence.
  reflexivity.
Qed.

Lemma readable_entry (key : string) (entry : CachedQuote) (c : QuoteCache) :
  cache_lookup key c = LEntry entry -> readable key c.
Proof. intros Hentry. unfold readable. rewrite Hentry. cbn. eauto. Qed.

Lemma readable_payload (v : json) :
  truthy v = true -> exists value, looked_data (LPayload v) = Returned value.
Proof. destruct v; cbn; intros Hv; eauto; discriminate Hv. Qed.

(** A key stays readable when an object with a truthy payload is assigned
    under any key. *)
Lemma readable_assign (key : string) (entry : CachedQuote) (c : QuoteCache)
    (k : string) :
  truthy (data entry) = true -> readable k c -> readable k (cache_assign key entry c).
Proof.
  intros Hv Hk.
  assert (Hinsert : readable k (with_entries (<[key := entry]> (qc_data c)) c)).
  { destruct (decide (k = key)) as [-> | Hne].
    - apply (readable_entry _ entry), cache_lookup_own, lookup_insert_eq.
    - unfold readable. rewrite cache_lookup_other by exact Hne. exact Hk. }
  unfold cache_assign. destruct (qc_data c !! key) eqn:Hold; [exact Hinsert |].
  destruct (String.eqb_spec key "__proto__") as [-> | Hkey]; [| exact Hinsert].
  unfold readable, cache_lookup in *. cbn.
  destruct (qc_data c !! k); [exact Hk |].
  destruct (String.eqb k "__proto__"); [cbn; eauto |].
  destruct (String.eqb k "data"); [apply readable_payload, Hv |].
  destruct (String.eqb k "timestamp"); [cbn; eauto |].
  destruct (qc_proto c); exact Hk.
Qed.

(** What [for]-[in] visits is readable, the payload of the prototype being
    truthy. *)
Lemma for_in_keys_readable (w : World) (key : string) :
  cache_sound w -> key ∈ for_in_keys (quoteCache w) -> readable key (quoteCache w).
Proof.
  intros [_ Hproto] Hkey. unfold for_in_keys in Hkey.
  apply elem_of_app in Hkey as [Hkey | Hkey].
  - apply list_elem_of_fmap in Hkey as ([k e] & -> & Hkey).
    apply elem_of_map_to_list in Hkey.
    apply (readable_entry _ e), cache_lookup_own, Hkey.
  - destruct (qc_proto (quoteCache w)) as [entry |] eqn:Hentry;
      [| apply elem_of_nil in Hkey as []].
    apply list_elem_of_filter in Hkey as [Hown Hkey].
    unfold readable, cache_lookup. rewrite Hown, Hentry.
    apply elem_of_cons in Hkey as [-> | Hkey];
      [cbn; apply readable_payload, Hproto; reflexivity |].
    apply list_elem_of_singleton in Hkey as ->. cbn. eauto.
Qed.

Lemma effect_ok_sound (K : Known) {X : Type} (ev : event X) :
  effect_ok K ev -> sound_write X ev = true.
Proof. destruct ev; cbn; try reflexivity; tauto. Qed.

Lemma perform_answer_ok {X : Type} (ev : event X) (w : World) :
  cache_sound w -> answer_ok env (known_of w) ev (perform env ev w).1.
Proof.
  intros Hw. destruct ev; cbn; try exact I; try reflexivity; try lia.
  - intros Hkey. exact Hkey.
  - intros key Hkey. apply for_in_keys_readable; assumption.
Qed.

Lemma perform_readable {X : Type} (ev : event X) (w : World) (key : string) :
  effect_ok (known_of w) ev ->
  readable key (quoteCache w) -> readable key (quoteCache (perform env ev w).2).
Proof.
  intros Hev Hkey. destruct ev; cbn in *; try exact Hkey.
  - destruct (upstream env _ _) as [r latency]. exact Hkey.
  - apply readable_assign; [apply Hev | exact Hkey].
  - contradiction.
Qed.

Lemma perform_known {X : Type} (ev : event X) (w : World) :
  effect_ok (known_of w) ev ->
  known_le (learn (known_of w) ev (perform env ev w).1) (known_of (perform env ev w).2).
Proof.
  intros Hev. split.
  - pose proof (perform_clock env ev w) as Hc.
    destruct ev; cbn in *; try exact Hc; try lia;
      try (destruct (upstream env _ _) as [r latency]; exact Hc).
  - intros key Hkey. apply (perform_readable ev w key Hev).
    destruct ev; exact Hkey.
Qed.

Lemma perform_grows {X : Type} (ev : event X) (w : World) :
  effect_ok (known_of w) ev ->
  known_le (known_of w) (known_of (perform env ev w).2).
Proof.
  intros Hev. split; [apply perform_clock |].
  intros key. apply perform_readable, Hev.
Qed.

Lemma stamps_ok_later (w w' : World) :
  quoteCache w' = quoteCache w -> clock w <= clock w' -> stamps_ok w -> stamps_ok w'.
Proof.
  intros Hq Hc (Hentries & Hproto & Hlast). unfold stamps_ok. rewrite Hq.
  split; [| split].
  - intros s e Hs. specialize (Hentries s e Hs). lia.
  - intros e He. specialize (Hproto e He). lia.
  - lia.
Qed.

Lemma perform_stamps {X : Type} (ev : event X) (w : World) :
  effect_ok (known_of w) ev -> stamps_ok w -> stamps_ok (perform env ev w).2.
Proof.
  intros Hev Hw.
  pose proof (perform_clock env ev w) as Hc.
  destruct ev;
    try (apply (stamps_ok_later w); [reflexivity | exact Hc | exact Hw]).
  - apply (stamps_ok_later w); [| exact Hc | exact Hw].
    cbn. destruct (upstream env _ _) as [r latency]. reflexivity.
  - destruct Hw as (Hentries & Hproto & Hlast). destruct Hev as [Hev _]. cbn in *.
    assert (Hinsert : forall s e,
              <[symbol := entry]> (qc_data (quoteCache w)) !! s = Some e ->
              timestamp e <= clock w).
    { intros s e Hs.
      apply lookup_insert_Some in Hs as [[_ <-] | [_ Hs]]; [exact Hev | eauto]. }
    unfold stamps_ok, cache_assign. cbn.
    destruct (qc_data (quoteCache w) !! symbol); [auto |].
    destruct (String.eqb symbol "__proto__"); cbn; [| auto].
    split; [exact Hentries |]. split; [| exact Hlast].
    intros e [= <-]. exact Hev.
  - contradiction.
  - destruct Hw as (Hentries & Hproto & Hlast).
    split; [exact Hentries |]. split; [exact Hproto | right; exact Hev].
Qed.

Lemma step_pool_ok (s s' : System) :
  sys_step env s s' -> pool_ok env s -> pool_ok env s'.
Proof.
  intros Hstep (Hw & Hsound & Hpool). destruct Hstep as [w pool | w pool req res
    | w pool i X ev k Htask | w pool d]; cbn [fst snd] in *.
  - split; [exact Hw |]. split; [exact Hsound |].
    apply Forall_app. split; [exact Hpool |]. constructor; [| constructor].
    eapply well_behaved_weaken; [| apply updateAllStocks_well_behaved]. intros e [].
  - split; [exact Hw |]. split; [exact Hsound |].
    apply Forall_app. split; [exact Hpool |].
    constructor; [apply serve_well_behaved | constructor].
  - pose proof (proj1 (Forall_lookup _ _) Hpool i _ Htask) as Hwb.
    destruct (Hwb (known_of w) (known_le_refl _)) as [Hev Hk].
    split; [apply perform_stamps; assumption |].
    split; [apply perform_sound; [eapply effect_ok_sound, Hev | exact Hsound] |].
    cbn [fst snd]. apply Forall_insert.
    + eapply Forall_impl; [exact Hpool |]. intros m Hm.
      eapply well_behaved_mono; [apply perform_grows, Hev | exact Hm].
    + eapply well_behaved_mono; [apply perform_known, Hev |].
      apply Hk, perform_answer_ok, Hsound.
  - split; [apply (stamps_ok_later w); [reflexivity | cbn; lia | exact Hw] |].
    split; [exact Hsound |].
    eapply Forall_impl; [exact Hpool |]. intros m Hm.
    eapply well_behaved_mono; [| exact Hm].
    split; [cbn; lia | auto].
Qed.

Lemma reachable_pool_ok (s : System) : reachable env s -> pool_ok env s.
Proof.
  intros [start Hreach].
  assert (Hinit : pool_ok env (boot start)).
  { split; [| split; [| constructor]].
    - split; [| split; [| left; reflexivity]].
      + intros symbol entry Hs. cbn in Hs. rewrite lookup_empty in Hs. discriminate.
      + intros entry He. discriminate He.
    - split.
      + intros symbol entry Hs. cbn in Hs. rewrite lookup_empty in Hs. discriminate.
      + intros entry He. discriminate He. }
  revert Hinit. generalize dependent (boot start).
  intros s0 Hreach. induction Hreach as [s | s0 s1 s Hstep _ IH]; intros Hinit.
  - exact Hinit.
  - apply IH. eapply step_pool_ok; eassumption.
Qed.

(** X10: nothing is stamped in the future.  In every state the process can
    reach, with passes and requests interleaved in any way, the timestamp of
    every cache entry is at most the current clock, so the age the freshness
    test computes is never negative; and [lastUpdated] is either still the
    initial 0 or at most the current clock. *)
Theorem reachable_stamps_in_the_past (s : System) :
  reachable env s ->
  (forall symbol entry,
     qc_data (quoteCache s.1) !! symbol = Some entry ->
     0 <= clock s.1 - timestamp entry) /\
  (lastUpdated (quoteCache s.1) = 0 \/ lastUpdated (quoteCache s.1) <= clock s.1).
Proof.
  intros Hreach. destruct (reachable_pool_ok s Hreach) as [(Hentries & _ & Hlast) _].
  split; [| exact Hlast].
  intros symbol entry Hs. specialize (Hentries symbol entry Hs). lia.
Qed.


End Tasks.

(** * Scenarios *)

(** Cache empty, upstream returns the quote for AAPL: the answer is 200 with
    that body and the cache holds it with the time of the fetch. *)
Example first_quote_is_cached :
  let '(resp, w') :=
    run sample_env (api_quote (quote_request (QStr "AAPL")) fresh_response)
      (initial_world 1000) in
  resp = Returned {| statusCode := 200; headers := ∅; body := JsonValue sample_quote |} /\
  qc_data (quoteCache w') !! "AAPL" = Some {| data := sample_quote; timestamp := 1020 |}.
Proof. vm_compute. split; reflexivity. Qed.

(** A symbol outside the monitored list is fetched like any other. *)
Example unmonitored_symbol_is_fetched :
  outbound (exec sample_env (api_quote (quote_request (QStr "IBM")) fresh_response)
              (initial_world 1000)) =
  ["https://finnhub.io/api/v1/quote?symbol=IBM&token=demo"].
Proof. vm_compute. reflexivity. Qed.

(** The test [if (data)] is on truthiness: a request that resolves with a
    falsy body is handled like one that failed.  Here the upstream answers
    [0]; the fetch returns [0], not [null], yet nothing is stored. *)
Example falsy_body_is_not_cached :
  fetched zero_env "AAPL" (initial_world 1000) = JNum (Qmake 0 1) /\
  store_writes zero_env (update_one "AAPL") (initial_world 1000) = [] /\
  result zero_env (api_quote (quote_request (QStr "AAPL")) fresh_response)
    (initial_world 1000) =
  Returned {| statusCode := 404; headers := ∅;
              body := JsonError "Symbol data not available" |}.
Proof. vm_compute. repeat split; reflexivity. Qed.

(** [GET /api/status] counts the entries of the cache. *)
Example status_counts_entries :
  result sample_env (api_status status_request fresh_response) (seeded_world 61000) =
  Returned {| statusCode := 200; headers := ∅;
              body := JsonStatus "online" 500 1 (Qmake 61000 1000) |}.
Proof. vm_compute. reflexivity. Qed.

(** A request with a foreign origin gets no [Access-Control-Allow-Origin]. *)
Example foreign_origin_is_not_reflected :
  set_cors_headers {| method := "GET"; path := "/api/quotes"; query_symbol := QUndefined;
          origin := Some "https://evil.example"; ip := "198.51.100.9" |}
    fresh_response =
  {| statusCode := 200;
     headers := {[ "Access-Control-Allow-Headers" := allow_headers ]};
     body := NoBody |}.
Proof. reflexivity. Qed.

(** [?symbol[]=] delivers the array [['']], which is truthy and converts to
    the empty key: the request passes the guard of line 104, asks the
    upstream for the empty symbol and stores the answer under the empty
    key. *)
Example array_symbol_is_stored_under_empty_key :
  let '(resp, w') :=
    run sample_env (api_quote (quote_request (QArr [QStr ""])) fresh_response)
      (initial_world 1000) in
  resp = Returned {| statusCode := 200; headers := ∅; body := JsonValue sample_quote |} /\
  outbound w' = ["https://finnhub.io/api/v1/quote?symbol=&token=demo"] /\
  qc_data (quoteCache w') !! "" = Some {| data := sample_quote; timestamp := 1020 |}.
Proof. vm_compute. repeat split; reflexivity. Qed.

(** [?symbol[toString]=1] delivers an object that cannot be converted to a
    property key: the handler throws at line 109, before its [try], without
    having answered or changed anything. *)
Example object_symbol_throws :
  run sample_env
    (api_quote (quote_request (QObj [("toString", QStr "1")])) fresh_response)
    (seeded_world 1000) =
  (Raised cannot_convert, seeded_world 1000).
Proof. reflexivity. Qed.

(** * The theorems at concrete inputs *)

(** A pass in which the fetch of MSFT, the second symbol, is rejected, over a
    cache that holds an old MSFT entry. *)
Lemma updateAllStocks_isolates_failures_witness :
  result sample_env updateAllStocks (seeded_world 1000) = Returned tt /\
  length (outbound (exec sample_env updateAllStocks (seeded_world 1000))) = 35%nat /\
  qc_data (quoteCache (exec sample_env updateAllStocks (seeded_world 1000))) !! "MSFT" =
    Some {| data := old_quote; timestamp := 400 |}.
Proof.
  destruct (updateAllStocks_isolates_failures sample_env (seeded_world 1000)
              ["AAPL"] (drop 2 MONITORED_STOCKS) "MSFT")
    as (Hret & Hout & _ & Hkept).
  - reflexivity.
  - vm_compute. reflexivity.
  - split; [exact Hret |]. split.
    + rewrite Hout. reflexivity.
    + rewrite Hkept. reflexivity.
Defined.

(** The same pass seen whole: AAPL succeeded and holds the new quote, MSFT
    failed and holds the old one, and [lastUpdated] is the end of the pass. *)
Lemma updateAllStocks_full_pass_witness :
  qc_data (quoteCache (exec sample_env updateAllStocks (seeded_world 1000))) !! "AAPL" =
    Some {| data := sample_quote; timestamp := 1020 |} /\
  1020 <= lastUpdated (quoteCache (exec sample_env updateAllStocks (seeded_world 1000))) /\
  qc_data (quoteCache (exec sample_env updateAllStocks (seeded_world 1000))) !! "MSFT" =
    Some {| data := old_quote; timestamp := 400 |} /\
  length (store_writes sample_env updateAllStocks (seeded_world 1000)) = 35%nat.
Proof.
  destruct (updateAllStocks_full_pass sample_env (seeded_world 1000))
    as (_ & _ & Hwrites & Hok & Hfailed & _).
  destruct (Hok ("AAPL", sample_quote, 1020)) as [Haapl Htime].
  { vm_compute. left. }
  { reflexivity. }
  assert (Hmsft : ("MSFT", JNull, 2552) ∈
            pass_fetches sample_env MONITORED_STOCKS (pass_started (seeded_world 1000))).
  { vm_compute. right. left. }
  specialize (Hfailed ("MSFT", JNull, 2552) Hmsft eq_refl). cbn [fst snd] in Hfailed.
  split; [exact Haapl |]. split; [exact Htime |]. split.
  - rewrite Hfailed. reflexivity.
  - rewrite Hwrites. vm_compute. reflexivity.
Defined.

(** One millisecond before the three minutes are over the cached quote is
    served; at exactly three minutes the upstream is asked. *)
Lemma api_quote_freshness_witness :
  (exists resp,
     run sample_env (api_quote (quote_request (QStr "MSFT")) fresh_response)
       (seeded_world 180399) = (Returned resp, seeded_world 180399) /\
     statusCode resp = 200 /\ body resp = JsonValue old_quote) /\
  outbound (exec sample_env (api_quote (quote_request (QStr "MSFT")) fresh_response)
              (seeded_world 180400)) =
    [url_of sample_env "MSFT"].
Proof.
  split.
  - apply (api_quote_freshness sample_env (quote_request (QStr "MSFT")) fresh_response
             (seeded_world 180399) "MSFT" old_quote 400);
      [reflexivity | discriminate | reflexivity | reflexivity | reflexivity].
  - apply (api_quote_freshness sample_env (quote_request (QStr "MSFT")) fresh_response
             (seeded_world 180400) "MSFT" old_quote 400);
      [reflexivity | discriminate | reflexivity | reflexivity | discriminate].
Defined.

Lemma api_quote_missing_symbol_witness :
  exists resp,
    run sample_env (api_quote (quote_request QUndefined) fresh_response)
      (seeded_world 1000) =
      (Returned resp, seeded_world 1000) /\
    statusCode resp = 400 /\
    body resp = JsonError "Symbol parameter is required".
Proof.
  apply (api_quote_missing_symbol sample_env (quote_request QUndefined) fresh_response
           (seeded_world 1000)).
  reflexivity.
Defined.

(** The old MSFT entry is stale and the upstream is down. *)
Lemma api_quote_stale_and_absent_witness :
  exists resp w',
    run down_env (api_quote (quote_request (QStr "MSFT")) fresh_response)
      (seeded_world 200000) = (Returned resp, w') /\
    statusCode resp = 404 /\
    body resp = JsonError "Symbol data not available" /\
    store_writes down_env (api_quote (quote_request (QStr "MSFT")) fresh_response)
      (seeded_world 200000) = [] /\
    quoteCache w' = quoteCache (seeded_world 200000) /\
    qc_data (quoteCache w') !! "MSFT" = Some {| data := old_quote; timestamp := 400 |}.
Proof.
  apply (api_quote_stale_and_absent down_env (quote_request (QStr "MSFT"))
           fresh_response (seeded_world 200000) "MSFT"
           {| data := old_quote; timestamp := 400 |});
    [reflexivity | discriminate | reflexivity | vm_compute; discriminate
    | vm_compute; reflexivity].
Defined.

Lemma cors_reflects_allowed_origin_witness :
  exists res',
    cors (quote_request (QStr "AAPL")) fresh_response Ret = Ret res' /\
    headers res' !! "Access-Control-Allow-Origin" = Some "https://hw-invest.web.app" /\
    headers res' !! "Access-Control-Allow-Headers" = Some allow_headers.
Proof.
  destruct (cors_reflects_allowed_origin (quote_request (QStr "AAPL")) fresh_response Ret)
    as (res' & Hnext & _ & _ & Hallow & Horigin).
  - reflexivity.
  - exists res'. split; [exact Hnext |]. split; [| exact Hallow].
    apply Horigin. split; [reflexivity | left; reflexivity].
Defined.

(** After a first refresh pass, a request for a symbol outside the monitored
    list is served: nothing the pass cached is lost. *)
Lemma cache_keys_never_shrink_witness :
  reachable sample_env after_first_pass /\
  rtc (sys_step sample_env) after_first_pass after_request /\
  cached_symbols after_first_pass.1 ⊆ cached_symbols after_request.1.
Proof.
  assert (Hreach : reachable sample_env after_first_pass).
  { exists 0. apply (rtc_l _ _ (initial_world 0, [] ++ [updateAllStocks])).
    - apply (step_refresh sample_env (initial_world 0) []).
    - exact (run_is_schedule sample_env updateAllStocks (initial_world 0) []). }
  assert (Hsteps : rtc (sys_step sample_env) after_first_pass after_request).
  { apply (rtc_l _ _ (first_pass_world,
                      first_pass_pool ++
                      [serve (quote_request (QStr "IBM")) fresh_response])).
    - apply (step_request sample_env first_pass_world first_pass_pool).
    - exact (run_is_schedule sample_env
               (serve (quote_request (QStr "IBM")) fresh_response)
               first_pass_world first_pass_pool). }
  split; [exact Hreach |]. split; [exact Hsteps |].
  exact (cache_keys_never_shrink sample_env after_first_pass after_request Hreach Hsteps).
Defined.

(** A hundred requests for AAPL and one more. *)
Lemma limiter_rejects_101st_witness :
  exists resp w',
    run sample_env (app (quote_request (QStr "AAPL")) fresh_response)
      (serve_all sample_env burst (initial_world 0)) = (Returned resp, w') /\
    statusCode resp = 429 /\
    body resp = TextBody "Too many requests, please try again later" /\
    quoteCache w' = quoteCache (serve_all sample_env burst (initial_world 0)).
Proof.
  destruct (limiter_rejects_101st sample_env (initial_world 0) burst
              (quote_request (QStr "AAPL")) fresh_response)
    as (_ & resp & w' & Hrun & Hstatus & Hbody & _ & _ & _ & Hcache & _).
  - reflexivity.
  - intros r Hr. apply elem_of_app in Hr as [Hr | Hr].
    + apply elem_of_replicate in Hr as [-> _]. split; reflexivity.
    + apply list_elem_of_singleton in Hr as ->. split; reflexivity.
  - intros c Hc. discriminate Hc.
  - vm_compute. reflexivity.
  - exists resp, w'. repeat split; assumption.
Defined.

(** * The further properties at concrete inputs *)

(** A first request for AAPL against an empty cache. *)
Lemma api_quote_stores_fetched_witness :
  fetched sample_env "AAPL" (initial_world 1000) = sample_quote /\
  exists w',
    run sample_env (api_quote (quote_request (QStr "AAPL")) fresh_response)
      (initial_world 1000) =
      (Returned (res_send (JsonValue (fetched sample_env "AAPL" (initial_world 1000)))
                   fresh_response), w') /\
    qc_data (quoteCache w') !! "AAPL" =
      Some {| data := fetched sample_env "AAPL" (initial_world 1000);
              timestamp := clock w' |} /\
    outbound w' = [url_of sample_env "AAPL"].
Proof.
  split; [reflexivity |].
  destruct (api_quote_stores_fetched sample_env (quote_request (QStr "AAPL"))
              fresh_response (initial_world 1000) "AAPL")
    as (w' & Hrun & Hentry & _ & _ & _ & Hout & _);
    [split; reflexivity | discriminate | reflexivity | reflexivity |].
  exists w'. split; [exact Hrun |]. split; [exact Hentry | exact Hout].
Defined.

(** A request for the key [__proto__] against the seeded cache: MSFT stays
    the only property of the dictionary. *)
Lemma api_quote_replaces_prototype_witness :
  exists w',
    run sample_env (api_quote (quote_request (QStr "__proto__")) fresh_response)
      (seeded_world 1000) =
      (Returned (res_send (JsonValue (fetched sample_env "__proto__" (seeded_world 1000)))
                   fresh_response), w') /\
    cached_symbols w' = cached_symbols (seeded_world 1000) /\
    qc_proto (quoteCache w') =
      Some {| data := fetched sample_env "__proto__" (seeded_world 1000);
              timestamp := clock w' |}.
Proof.
  destruct (api_quote_replaces_prototype sample_env (quote_request (QStr "__proto__"))
              fresh_response (seeded_world 1000))
    as (w' & Hrun & _ & Hkeys & Hproto & _);
    [split; reflexivity | reflexivity | reflexivity | reflexivity |].
  exists w'. split; [exact Hrun |]. split; [exact Hkeys | exact Hproto].
Defined.

(** The same request again, one millisecond before the entry turns stale. *)
Lemma api_quote_then_cached_witness :
  run sample_env (api_quote (quote_request (QStr "AAPL")) fresh_response)
    (set_clock 181019
       (exec sample_env (api_quote (quote_request (QStr "AAPL")) fresh_response)
          (initial_world 1000))) =
  (Returned (res_send (JsonValue sample_quote) fresh_response),
   set_clock 181019
     (exec sample_env (api_quote (quote_request (QStr "AAPL")) fresh_response)
        (initial_world 1000))).
Proof.
  apply (api_quote_then_cached sample_env (quote_request (QStr "AAPL"))
           (quote_request (QStr "AAPL")) fresh_response fresh_response
           (initial_world 1000) "AAPL" 181019);
    [reflexivity | reflexivity | discriminate | reflexivity | reflexivity
    | vm_compute; reflexivity].
Defined.

(** The upstream answers [0]. *)
Lemma falsy_body_is_dropped_witness :
  (exists w',
     run zero_env (api_quote (quote_request (QStr "AAPL")) fresh_response)
       (initial_world 1000) =
       (Returned (res_send (JsonError "Symbol data not available")
                    (res_status 404 fresh_response)), w') /\
     quoteCache w' = quoteCache (initial_world 1000) /\
     console w' = console (initial_world 1000)) /\
  quoteCache (exec zero_env (update_one "AAPL") (initial_world 1000)) =
    quoteCache (initial_world 1000) /\
  console (exec zero_env (update_one "AAPL") (initial_world 1000)) =
    console (initial_world 1000).
Proof.
  apply (falsy_body_is_dropped zero_env (quote_request (QStr "AAPL")) fresh_response
           (initial_world 1000) "AAPL" (JNum (Qmake 0 1)));
    [reflexivity | discriminate | reflexivity | reflexivity | reflexivity].
Defined.

(** The seeded cache has one entry, and the snapshot shows it. *)
Lemma api_quotes_snapshot_witness :
  exists quotes,
    run sample_env (api_quotes status_request fresh_response) (seeded_world 1000) =
      (Returned (res_send (JsonQuotes 500 quotes) fresh_response), seeded_world 1000) /\
    dom quotes = cached_symbols (seeded_world 1000) /\
    quotes !! "MSFT" = Some old_quote.
Proof.
  destruct (api_quotes_snapshot sample_env status_request fresh_response
              (seeded_world 1000))
    as (quotes & Hrun & Hdom & Hquotes); [split; reflexivity |].
  exists quotes. split; [exact Hrun |]. split; [exact Hdom |].
  rewrite Hquotes. reflexivity.
Defined.

Lemma loggableb_loggable (fetches : list (string * json * Z)) :
  forallb loggableb fetches = true -> forall f, f ∈ fetches -> loggable f.
Proof.
  intros Hall f Hf Hs. apply list_elem_of_In in Hf.
  pose proof (proj1 (forallb_forall _ _) Hall f Hf) as Hlog.
  unfold loggableb in Hlog. rewrite Hs in Hlog. exact Hlog.
Qed.

(** Every price of the sample pass is a number. *)
Lemma sample_pass_loggable (f : string * json * Z) :
  f ∈ pass_fetches sample_env MONITORED_STOCKS (pass_started (seeded_world 1000)) ->
  loggable f.
Proof. apply loggableb_loggable. vm_compute. reflexivity. Qed.


(** The AAPL entry of the sample pass is 52.5 s old when [lastUpdated] is
    set. *)
Lemma updateAllStocks_lastUpdated_lags_witness :
  exists entry,
    qc_data (quoteCache (exec sample_env updateAllStocks (seeded_world 1000))) !! "AAPL" =
      Some entry /\
    data entry = sample_quote /\
    timestamp entry + 1500 * (35 - 0)
    <= lastUpdated (quoteCache (exec sample_env updateAllStocks (seeded_world 1000))).
Proof.
  apply (updateAllStocks_lastUpdated_lags sample_env (seeded_world 1000) 0%nat
           ("AAPL", sample_quote, 1020) sample_pass_loggable);
    vm_compute; reflexivity.
Defined.

(** A price that is an object with a member [toString]: the quote is stored,
    the failure is logged and no timer is set. *)
Lemma update_one_skips_delay_witness :
  qc_data (quoteCache (exec unloggable_env (update_one "AAPL") (initial_world 1000)))
    !! "AAPL" = Some {| data := unloggable_quote; timestamp := 1020 |} /\
  console (exec unloggable_env (update_one "AAPL") (initial_world 1000)) =
    [ErrFailedUpdate "AAPL" cannot_convert] /\
  timers (exec unloggable_env (update_one "AAPL") (initial_world 1000)) = 0%nat /\
  clock (exec unloggable_env (update_one "AAPL") (initial_world 1000)) = 1020.
Proof.
  destruct (update_one_skips_delay unloggable_env "AAPL" (initial_world 1000))
    as (_ & Hcache & Hconsole & Htimers & Hclock); [reflexivity | reflexivity |].
  split; [rewrite Hcache; reflexivity |].
  split; [rewrite Hconsole; reflexivity |].
  split; [rewrite Htimers; reflexivity | rewrite Hclock; reflexivity].
Defined.

(** A request for AAPL a hundred seconds after the sample pass began. *)
Lemma pass_then_quote_cached_witness :
  run sample_env (api_quote (quote_request (QStr "AAPL")) fresh_response)
    (set_clock 101000 (exec sample_env updateAllStocks (seeded_world 1000))) =
  (Returned (res_send (JsonValue sample_quote) fresh_response),
   set_clock 101000 (exec sample_env updateAllStocks (seeded_world 1000))).
Proof.
  apply (pass_then_quote_cached sample_env (seeded_world 1000)
           ("AAPL", sample_quote, 1020) (quote_request (QStr "AAPL")) fresh_response
           101000).
  - vm_compute. left.
  - reflexivity.
  - reflexivity.
  - vm_compute. reflexivity.
Defined.

Lemma after_first_pass_reachable : reachable sample_env after_first_pass.
Proof.
  exists 0. apply (rtc_l _ _ (initial_world 0, [] ++ [updateAllStocks])).
  - apply (step_refresh sample_env (initial_world 0) []).
  - exact (run_is_schedule sample_env updateAllStocks (initial_world 0) []).
Qed.

Lemma reachable_stamps_in_the_past_witness :
  (forall symbol entry,
     qc_data (quoteCache after_first_pass.1) !! symbol = Some entry ->
     0 <= clock after_first_pass.1 - timestamp entry) /\
  (lastUpdated (quoteCache after_first_pass.1) = 0 \/
   lastUpdated (quoteCache after_first_pass.1) <= clock after_first_pass.1).
Proof.
  exact (reachable_stamps_in_the_past sample_env after_first_pass
           after_first_pass_reachable).
Defined.



Lemma reachable_cache_sound_witness : cache_sound after_first_pass.1.
Proof.
  exact (reachable_cache_sound sample_env after_first_pass after_first_pass_reachable).
Defined.

(** A first request for IBM against the seeded cache adds a second quote. *)
Lemma api_quote_then_quotes_witness :
  exists quotes,
    run sample_env (api_quotes status_request fresh_response)
      (exec sample_env (api_quote (quote_request (QStr "IBM")) fresh_response)
         (seeded_world 1000)) =
      (Returned (res_send (JsonQuotes 500 quotes) fresh_response),
       exec sample_env (api_quote (quote_request (QStr "IBM")) fresh_response)
         (seeded_world 1000)) /\
    quotes !! "IBM" = Some sample_quote /\
    size quotes = 2%nat.
Proof.
  destruct (api_quote_then_quotes sample_env (quote_request (QStr "IBM")) status_request
              fresh_response fresh_response (seeded_world 1000) "IBM")
    as (quotes & Hrun & Hibm & _ & Hsize);
    [split; reflexivity | discriminate | split; reflexivity | reflexivity
    | reflexivity |].
  exists quotes. split; [exact Hrun |]. split; [exact Hibm |].
  rewrite Hsize. reflexivity.
Defined.

(** A request without a symbol is answered 400, with the CORS headers. *)
Lemma handlers_answers_carry_cors_witness :
  exists resp,
    result sample_env (cors (quote_request QUndefined) fresh_response
                         (api_quote (quote_request QUndefined))) (initial_world 0) =
      Returned resp /\
    statusCode resp = 400 /\
    headers resp !! "Access-Control-Allow-Origin" = Some "https://hw-invest.web.app" /\
    headers resp !! "Access-Control-Allow-Headers" = Some allow_headers.
Proof.
  eexists. split; [reflexivity |]. split; [reflexivity |].
  destruct (handlers_answers_carry_cors sample_env (quote_request QUndefined)
              fresh_response (initial_world 0) api_quote _ (or_introl eq_refl) eq_refl)
    as (Hallow & Horigin).
  split; [exact Horigin | exact Hallow].
Defined.
